(** * Lowering of the typed GraphQL IR to the legacy IR

    A shallow embedding of [src/compiler/legacyIR.ts]: the fragment-spread
    classifier [collectFragmentSpreads], the mutually recursive lowerers
    [transformSelectionSetToLegacyIR] and [transformFieldsToLegacyIR], and
    the assembler [compileToLegacyIR], followed by the properties the
    specification states about them. *)

From Stdlib Require Import List String Ascii ZArith NArith Bool Arith Lia.
Import ListNotations.

Local Open Scope list_scope.

(* ================================================================== *)
(** * Schema types *)

(** An object type of the schema.  The source compares such objects by
    reference ([Array.prototype.includes]); inside one schema an object
    type is the unique object carrying its name, so reference equality is
    equality of this record.  Names are GraphQL names
    ([/[_A-Za-z][_0-9A-Za-z]*/]); in particular they are never array
    indices. *)
Record GraphQLObjectType : Type := mkObjectType { ot_name : string }.

Definition objectType_eqb (a b : GraphQLObjectType) : bool :=
  String.eqb (ot_name a) (ot_name b).

(** [GraphQLType], copied verbatim by the lowering. *)
Inductive GraphQLType : Type :=
| GraphQLNamed (n : string)
| GraphQLList (ofType : GraphQLType)
| GraphQLNonNull (ofType : GraphQLType).

(** [{ name: string; value: any }] *)
Inductive ArgValue : Type :=
| VNull | VBool (b : bool) | VInt (z : Z) | VString (s : string)
| VVariable (variableName : string).

Record Argument : Type := mkArgument { arg_name : string; arg_value : ArgValue }.

(* ================================================================== *)
(** * The upstream (typed) IR consumed by the lowering *)

Record FragmentSpread : Type := mkFragmentSpread { fragmentName : string }.

(** Modelled from the spec: the declarations of [SelectionSet], its
    selection kinds and the upstream [Field] live in [./index.ts], which is
    not part of the sources at hand.  A selection set exposes its possible
    types and an ordered sequence of selections, each a field, a named
    fragment reference, an inline type condition or a boolean condition,
    the last two carrying a nested selection set.  The fields of [NewField]
    are the ones [transformFieldsToLegacyIR] destructures. *)
Inductive SelectionSet : Type :=
| mkSelectionSet (possibleTypes : list GraphQLObjectType)
                 (selections : list Selection)
with Selection : Type :=
| SField (field : NewField)
| SFragmentSpread (fragmentSpread : FragmentSpread)
| STypeCondition (type : string) (selectionSet : SelectionSet)
| SBooleanCondition (variableName : string) (inverted : bool)
                    (selectionSet : SelectionSet)
with NewField : Type :=
| mkNewField (name : string) (alias : option string)
             (args : option (list Argument)) (type : GraphQLType)
             (isConditional : option bool) (description : option string)
             (isDeprecated : option bool) (deprecationReason : option string)
             (selectionSet : option SelectionSet).

Definition ss_possibleTypes (s : SelectionSet) : list GraphQLObjectType :=
  match s with mkSelectionSet p _ => p end.
Definition ss_selections (s : SelectionSet) : list Selection :=
  match s with mkSelectionSet _ l => l end.

Definition nf_name (f : NewField) : string :=
  match f with mkNewField n _ _ _ _ _ _ _ _ => n end.
Definition nf_alias (f : NewField) : option string :=
  match f with mkNewField _ a _ _ _ _ _ _ _ => a end.
Definition nf_args (f : NewField) : option (list Argument) :=
  match f with mkNewField _ _ a _ _ _ _ _ _ => a end.
Definition nf_type (f : NewField) : GraphQLType :=
  match f with mkNewField _ _ _ t _ _ _ _ _ => t end.
Definition nf_isConditional (f : NewField) : option bool :=
  match f with mkNewField _ _ _ _ c _ _ _ _ => c end.
Definition nf_description (f : NewField) : option string :=
  match f with mkNewField _ _ _ _ _ d _ _ _ => d end.
Definition nf_isDeprecated (f : NewField) : option bool :=
  match f with mkNewField _ _ _ _ _ _ d _ _ => d end.
Definition nf_deprecationReason (f : NewField) : option string :=
  match f with mkNewField _ _ _ _ _ _ _ r _ => r end.
Definition nf_selectionSet (f : NewField) : option SelectionSet :=
  match f with mkNewField _ _ _ _ _ _ _ _ s => s end.

(** [CompilerOptions]; every member is optional in the source. *)
Record CompilerOptions : Type := mkCompilerOptions {
  addTypename : option bool;
  mergeInFieldsFromFragmentSpreads : option bool;
  passthroughCustomScalars : option bool;
  customScalarsPrefix : option string;
  namespace : option string;
  generateOperationIds : option bool
}.

(** JavaScript truthiness of an optional boolean member. *)
Definition truthy (b : option bool) : bool :=
  match b with Some true => true | _ => false end.

(** A JavaScript object used as a string-keyed dictionary.  [Object.entries]
    enumerates string keys in insertion order, so the entries are kept as
    an association list in that order. *)
Definition JSObject (A : Type) : Type := list (string * A).

Fixpoint obj_get {A : Type} (k : string) (o : JSObject A) : option A :=
  match o with
  | [] => None
  | (k', v) :: o' => if String.eqb k k' then Some v else obj_get k o'
  end.

(** [o[k] = v]: overwrite in place when the key exists, append otherwise. *)
Fixpoint obj_set {A : Type} (k : string) (v : A) (o : JSObject A) : JSObject A :=
  match o with
  | [] => [(k, v)]
  | (k', v') :: o' =>
      if String.eqb k k' then (k, v) :: o' else (k', v') :: obj_set k v o'
  end.

(** Modelled from the spec: the upstream operation and fragment records and
    the upstream compilation context are declared in [./index.ts]; the
    members are the ones [compileToLegacyIR] reads. *)
Record Operation : Type := mkOperation {
  op_filePath : option string;
  op_operationName : string;
  op_operationType : string;
  op_rootType : GraphQLObjectType;
  op_variables : list (string * GraphQLType);
  op_source : string;
  op_selectionSet : SelectionSet
}.

Record Fragment : Type := mkFragment {
  fr_filePath : option string;
  fr_fragmentName : string;
  fr_source : string;
  fr_type : string;
  fr_selectionSet : SelectionSet
}.

Record NewCompilationContext (Schema : Type) : Type := mkNewContext {
  nc_schema : Schema;
  nc_operations : JSObject Operation;
  nc_fragments : JSObject Fragment;
  nc_typesUsed : list GraphQLType;
  nc_options : CompilerOptions
}.
Arguments mkNewContext {Schema}.
Arguments nc_schema {Schema}.
Arguments nc_operations {Schema}.
Arguments nc_fragments {Schema}.
Arguments nc_typesUsed {Schema}.
Arguments nc_options {Schema}.

(* ================================================================== *)
(** * The fragment-spread classifier *)

(** [Array.prototype.every] and [Array.prototype.includes]. *)
Definition every {A : Type} (p : A -> bool) (l : list A) : bool := forallb p l.

Definition includes (l : list GraphQLObjectType) (t : GraphQLObjectType) : bool :=
  existsb (objectType_eqb t) l.

(** [collectFragmentSpreads(context, selectionSet, possibleTypes)].  The
    third argument is optional and defaults to the selection set's own
    possible types; the loop pushes onto an array that starts empty. *)
Fixpoint collectFragmentSpreads {Schema : Type}
    (context : NewCompilationContext Schema)
    (selectionSet : SelectionSet)
    (possibleTypesArg : option (list GraphQLObjectType)) : list FragmentSpread :=
  let possibleTypes :=
    match possibleTypesArg with
    | Some p => p
    | None => ss_possibleTypes selectionSet
    end in
  fold_left
    (fun fragmentSpreads selection =>
       match selection with
       | SFragmentSpread fs => fragmentSpreads ++ [fs]
       | STypeCondition _ sub =>
           if every (fun t => includes (ss_possibleTypes sub) t) possibleTypes
           then fragmentSpreads
                  ++ collectFragmentSpreads context sub (Some possibleTypes)
           else fragmentSpreads
       | SBooleanCondition _ _ sub =>
           fragmentSpreads
             ++ collectFragmentSpreads context sub (Some possibleTypes)
       | SField _ => fragmentSpreads
       end)
    (ss_selections selectionSet) [].

(** What one direct selection contributes for a given target. *)
Definition contribution {Schema : Type} (context : NewCompilationContext Schema)
    (target : list GraphQLObjectType) (selection : Selection)
  : list FragmentSpread :=
  match selection with
  | SFragmentSpread fs => [fs]
  | STypeCondition _ sub =>
      if every (fun t => includes (ss_possibleTypes sub) t) target
      then collectFragmentSpreads context sub (Some target)
      else []
  | SBooleanCondition _ _ sub => collectFragmentSpreads context sub (Some target)
  | SField _ => []
  end.

(** The target the classifier works with. *)
Definition target_of (selectionSet : SelectionSet)
    (arg : option (list GraphQLObjectType)) : list GraphQLObjectType :=
  match arg with Some p => p | None => ss_possibleTypes selectionSet end.

(* ================================================================== *)
(** * Exceptions *)

(** The exceptions the embedded code can raise. *)
Inductive Error : Type :=
| StackExhausted
    (** [RangeError]: the recursion budget (the call stack) ran out *)
| InvalidArrayLength
    (** [RangeError]: a non-numeric value was assigned to an array's
        [length] *)
| UndefinedPropertyRead (property : string)
    (** [TypeError]: a property was read from [undefined] *).

Inductive Result (A : Type) : Type :=
| Ok (a : A)
| Throw (e : Error).
Arguments Ok {A}.
Arguments Throw {A}.

Definition bind {A B : Type} (m : Result A) (k : A -> Result B) : Result B :=
  match m with
  | Ok a => k a
  | Throw e => Throw e
  end.

Notation "x <- m ;; k" := (bind m (fun x => k))
  (at level 61, m at next level, right associativity).

(** [Array.prototype.map] with a callback that may throw: left to right,
    the first exception ends the traversal. *)
Fixpoint mapM {A B : Type} (f : A -> Result B) (l : list A) : Result (list B) :=
  match l with
  | [] => Ok []
  | x :: l' => y <- f x ;; ys <- mapM f l' ;; Ok (y :: ys)
  end.

(** [flatMap] of [../utilities/array]: map, then concatenate the arrays
    the callback returned. *)
Definition flatMapM {A B : Type} (f : A -> Result (list B)) (l : list A)
  : Result (list B) :=
  ys <- mapM f l ;; Ok (List.concat ys).

(* ================================================================== *)
(** * The legacy IR produced by the lowering *)

(** A JavaScript array that, being an object, may also carry named
    properties of its own next to its indexed elements, and has a
    prototype: [proto] is [None] for [Array.prototype], and [Some v] once
    the prototype was replaced by the object [v]. *)
Record JSArray (A : Type) : Type := mkJSArray {
  elems : list A;
  props : JSObject A;
  proto : option A
}.
Arguments mkJSArray {A}.
Arguments elems {A}.
Arguments props {A}.
Arguments proto {A}.

(** [arr[key] = v] for a key that is not an array index.  The key
    ["length"] addresses the array's length, and assigning an object to it
    raises a [RangeError]; the key ["__proto__"] reaches the setter of
    [Object.prototype], which replaces the array's prototype by the object
    and stores no property; any other name becomes (or overwrites) a named
    property of the array.  The elements are left alone in every case. *)
Definition array_set_named {A : Type} (key : string) (v : A) (arr : JSArray A)
  : Result (JSArray A) :=
  if String.eqb key "length" then Throw InvalidArrayLength
  else if String.eqb key "__proto__"
       then Ok (mkJSArray (elems arr) (props arr) (Some v))
       else Ok (mkJSArray (elems arr) (obj_set key v (props arr))
                          (proto arr)).

(** [Field], the flattened triple a lowered selection set consists of, and
    [CompiledInlineFragment].  A field either carries all of [fields],
    [fragmentSpreads] and [inlineFragments] (it had a selection set) or
    none of them. *)
Inductive Field : Type :=
| mkField (responseName fieldName : string) (type : GraphQLType)
          (args : option (list Argument)) (isConditional : option bool)
          (description : option string) (isDeprecated : option bool)
          (deprecationReason : option string)
          (nested : option LegacySelectionSet)
with LegacySelectionSet : Type :=
| mkLegacySelectionSet (fields : list Field) (fragmentSpreads : list string)
                       (inlineFragments : JSArray CompiledInlineFragment)
with CompiledInlineFragment : Type :=
| mkCompiledInlineFragment (typeCondition : GraphQLObjectType)
                           (possibleTypes : list GraphQLObjectType)
                           (fields : list Field)
                           (fragmentSpreads : list string).

Definition ls_fields (r : LegacySelectionSet) : list Field :=
  match r with mkLegacySelectionSet f _ _ => f end.
Definition ls_fragmentSpreads (r : LegacySelectionSet) : list string :=
  match r with mkLegacySelectionSet _ s _ => s end.
Definition ls_inlineFragments (r : LegacySelectionSet)
  : JSArray CompiledInlineFragment :=
  match r with mkLegacySelectionSet _ _ i => i end.

Definition cif_typeCondition (f : CompiledInlineFragment) : GraphQLObjectType :=
  match f with mkCompiledInlineFragment t _ _ _ => t end.
Definition cif_possibleTypes (f : CompiledInlineFragment)
  : list GraphQLObjectType :=
  match f with mkCompiledInlineFragment _ p _ _ => p end.
Definition cif_fields (f : CompiledInlineFragment) : list Field :=
  match f with mkCompiledInlineFragment _ _ l _ => l end.
Definition cif_fragmentSpreads (f : CompiledInlineFragment) : list string :=
  match f with mkCompiledInlineFragment _ _ _ s => s end.

(** Modelled from the spec: [TypeCase] and its records are declared in
    [./flattenIR.ts], which is not part of the sources at hand.  A type-case
    partition exposes one default record and zero or more extra records;
    each record exposes a possible-types subset, a field count
    ([fieldMap.size]) and its fields. *)
Record TypeCaseRecord : Type := mkTypeCaseRecord {
  record_possibleTypes : list GraphQLObjectType;
  record_fieldMap_size : nat;
  record_fields : list NewField
}.

Record TypeCase : Type := mkTypeCase {
  tc_default : TypeCaseRecord;
  tc_records : list TypeCaseRecord
}.

(** [a || b] on an optional string: an absent or empty [a] is falsy. *)
Definition string_or (a : option string) (b : string) : string :=
  match a with
  | Some EmptyString | None => b
  | Some s => s
  end.

(** The loop that, after the inline fragments are built, also stores each
    of them on the array under its type condition's name; [indexStep] is
    one turn of it. *)
Definition indexStep (acc : Result (JSArray CompiledInlineFragment))
    (inlineFragment : CompiledInlineFragment)
  : Result (JSArray CompiledInlineFragment) :=
  arr <- acc ;;
  array_set_named (ot_name (cif_typeCondition inlineFragment))
                  inlineFragment arr.

Definition indexByTypeName (inlineFragments : list CompiledInlineFragment)
  : Result (JSArray CompiledInlineFragment) :=
  fold_left indexStep inlineFragments
            (Ok (mkJSArray inlineFragments [] None)).

(* ================================================================== *)
(** * The selection-set and field lowerers *)

Section Lowering.

Variable Schema : Type.

(** The collaborators the lowering consumes as black boxes:
    [mergeInFragmentSpreads] of [./visitors/mergeInFragmentSpreads] and
    the constructor [new TypeCase(selectionSet)] of [./flattenIR]. *)
Variable mergeInFragmentSpreads :
  NewCompilationContext Schema -> SelectionSet -> SelectionSet.
Variable newTypeCase : SelectionSet -> TypeCase.

(** [new TypeCase(context.options.mergeInFieldsFromFragmentSpreads
      ? mergeInFragmentSpreads(context, selectionSet) : selectionSet)] *)
Definition typeCaseOf (context : NewCompilationContext Schema)
    (selectionSet : SelectionSet) : TypeCase :=
  newTypeCase
    (if truthy (mergeInFieldsFromFragmentSpreads (nc_options context))
     then mergeInFragmentSpreads context selectionSet
     else selectionSet).

(** The two conditions under which the lowering is shown to return: the
    nested selection sets the partitioner hands out get strictly smaller
    in some measure [rank] (nesting is finite: no cyclic fragment was
    merged in), and no possible type of an extra record is called
    [length]. *)
Definition nestingDecreases (context : NewCompilationContext Schema)
    (rank : SelectionSet -> nat) : Prop :=
  forall selectionSet record field sub,
    In record (tc_default (typeCaseOf context selectionSet)
               :: tc_records (typeCaseOf context selectionSet)) ->
    In field (record_fields record) ->
    nf_selectionSet field = Some sub ->
    rank sub < rank selectionSet.

Definition noTypeNamedLength (context : NewCompilationContext Schema) : Prop :=
  forall selectionSet record t,
    In record (tc_records (typeCaseOf context selectionSet)) ->
    In t (record_possibleTypes record) ->
    ot_name t <> "length"%string.

(** The predicate of the [filter] over [typeCase.records]. *)
Definition keepRecord (selectionSet : SelectionSet) (record : TypeCaseRecord)
  : bool :=
  negb (every (fun type => includes (record_possibleTypes record) type)
              (ss_possibleTypes selectionSet))
  && (0 <? record_fieldMap_size record).

(** What the [flatMap] callback returns once the record's fields are
    lowered: the record's fragment spreads are collected once, then one
    inline fragment is built per possible type of the record. *)
Definition expandRecord (context : NewCompilationContext Schema)
    (selectionSet : SelectionSet) (record : TypeCaseRecord)
    (fields : list Field) : list CompiledInlineFragment :=
  let fragmentSpreads :=
    map fragmentName
        (collectFragmentSpreads context selectionSet
           (Some (record_possibleTypes record))) in
  map (fun possibleType =>
         mkCompiledInlineFragment possibleType [possibleType]
                                  fields fragmentSpreads)
      (record_possibleTypes record).

(** The two lowerers call each other; [fuel] bounds the depth of the
    call stack, one unit per call. *)
Fixpoint transformSelectionSetToLegacyIR (fuel : nat)
    (context : NewCompilationContext Schema) (selectionSet : SelectionSet)
    {struct fuel} : Result LegacySelectionSet :=
  match fuel with
  | O => Throw StackExhausted
  | S fuel' =>
      let typeCase := typeCaseOf context selectionSet in
      fields <- transformFieldsToLegacyIR fuel' context
                  (record_fields (tc_default typeCase)) ;;
      inlineFragments <-
        flatMapM
          (fun record =>
             fields <- transformFieldsToLegacyIR fuel' context
                         (record_fields record) ;;
             Ok (expandRecord context selectionSet record fields))
          (filter (keepRecord selectionSet) (tc_records typeCase)) ;;
      inlineFragments <- indexByTypeName inlineFragments ;;
      let fragmentSpreads :=
        map fragmentName (collectFragmentSpreads context selectionSet None) in
      Ok (mkLegacySelectionSet fields fragmentSpreads inlineFragments)
  end

with transformFieldsToLegacyIR (fuel : nat)
    (context : NewCompilationContext Schema) (fields : list NewField)
    {struct fuel} : Result (list Field) :=
  match fuel with
  | O => Throw StackExhausted
  | S fuel' =>
      mapM
        (fun field =>
           nested <-
             match nf_selectionSet field with
             | Some selectionSet =>
                 r <- transformSelectionSetToLegacyIR fuel' context
                        selectionSet ;;
                 Ok (Some r)
             | None => Ok None
             end ;;
           Ok (mkField (string_or (nf_alias field) (nf_name field))
                       (nf_name field) (nf_type field) (nf_args field)
                       (nf_isConditional field) (nf_description field)
                       (nf_isDeprecated field) (nf_deprecationReason field)
                       nested))
        fields
  end.

(** One call of each lowerer with the calls it makes in turn taken as
    parameters; [transformSelectionSetToLegacyIR (S fuel)] and
    [transformFieldsToLegacyIR (S fuel)] are these with the other lowerer
    at [fuel] (see the unfolding lemmas). *)
Definition lowerSelectionSetWith
    (lowerFields : list NewField -> Result (list Field))
    (context : NewCompilationContext Schema) (selectionSet : SelectionSet)
    (typeCase : TypeCase) : Result LegacySelectionSet :=
  fields <- lowerFields (record_fields (tc_default typeCase)) ;;
  inlineFragments <-
    flatMapM
      (fun record =>
         fields <- lowerFields (record_fields record) ;;
         Ok (expandRecord context selectionSet record fields))
      (filter (keepRecord selectionSet) (tc_records typeCase)) ;;
  inlineFragments <- indexByTypeName inlineFragments ;;
  let fragmentSpreads :=
    map fragmentName (collectFragmentSpreads context selectionSet None) in
  Ok (mkLegacySelectionSet fields fragmentSpreads inlineFragments).

Definition lowerFieldWith
    (lowerSelectionSet : SelectionSet -> Result LegacySelectionSet)
    (field : NewField) : Result Field :=
  nested <-
    match nf_selectionSet field with
    | Some selectionSet =>
        r <- lowerSelectionSet selectionSet ;; Ok (Some r)
    | None => Ok None
    end ;;
  Ok (mkField (string_or (nf_alias field) (nf_name field))
              (nf_name field) (nf_type field) (nf_args field)
              (nf_isConditional field) (nf_description field)
              (nf_isDeprecated field) (nf_deprecationReason field)
              nested).

(** The inline fragments of the kept records [kept], whose lowered field
    lists are [lowered], in order. *)
Definition expandAll (context : NewCompilationContext Schema)
    (selectionSet : SelectionSet) (kept : list TypeCaseRecord)
    (lowered : list (list Field)) : list CompiledInlineFragment :=
  List.concat
    (map (fun p => expandRecord context selectionSet (fst p) (snd p))
         (combine kept lowered)).

End Lowering.

(* ================================================================== *)
(** * The content digest *)

(** [createHash('sha256').update(text).digest('hex')] of Node's [crypto]:
    SHA-256 (FIPS 180-4) over the UTF-8 bytes of the text, rendered in
    lowercase hexadecimal.  Texts are held as [string]s of bytes, that is,
    in their UTF-8 encoding; 32-bit words are [Z]s below [2^32]. *)
Module SHA256.

Local Open Scope Z_scope.

Definition w32 (x : Z) : Z := Z.land x 0xffffffff.
Definition add32 (x y : Z) : Z := w32 (x + y).
Definition rotr (n x : Z) : Z :=
  Z.lor (Z.shiftr x n) (w32 (Z.shiftl x (32 - n))).
Definition shr (n x : Z) : Z := Z.shiftr x n.
Definition not32 (x : Z) : Z := Z.lxor x 0xffffffff.

Definition Ch (x y z : Z) : Z := Z.lxor (Z.land x y) (Z.land (not32 x) z).
Definition Maj (x y z : Z) : Z :=
  Z.lxor (Z.lxor (Z.land x y) (Z.land x z)) (Z.land y z).
Definition Sigma0 (x : Z) : Z :=
  Z.lxor (Z.lxor (rotr 2 x) (rotr 13 x)) (rotr 22 x).
Definition Sigma1 (x : Z) : Z :=
  Z.lxor (Z.lxor (rotr 6 x) (rotr 11 x)) (rotr 25 x).
Definition sigma0 (x : Z) : Z :=
  Z.lxor (Z.lxor (rotr 7 x) (rotr 18 x)) (shr 3 x).
Definition sigma1 (x : Z) : Z :=
  Z.lxor (Z.lxor (rotr 17 x) (rotr 19 x)) (shr 10 x).

Definition K : list Z :=
  [0x428A2F98; 0x71374491; 0xB5C0FBCF; 0xE9B5DBA5;
   0x3956C25B; 0x59F111F1; 0x923F82A4; 0xAB1C5ED5;
   0xD807AA98; 0x12835B01; 0x243185BE; 0x550C7DC3;
   0x72BE5D74; 0x80DEB1FE; 0x9BDC06A7; 0xC19BF174;
   0xE49B69C1; 0xEFBE4786; 0x0FC19DC6; 0x240CA1CC;
   0x2DE92C6F; 0x4A7484AA; 0x5CB0A9DC; 0x76F988DA;
   0x983E5152; 0xA831C66D; 0xB00327C8; 0xBF597FC7;
   0xC6E00BF3; 0xD5A79147; 0x06CA6351; 0x14292967;
   0x27B70A85; 0x2E1B2138; 0x4D2C6DFC; 0x53380D13;
   0x650A7354; 0x766A0ABB; 0x81C2C92E; 0x92722C85;
   0xA2BFE8A1; 0xA81A664B; 0xC24B8B70; 0xC76C51A3;
   0xD192E819; 0xD6990624; 0xF40E3585; 0x106AA070;
   0x19A4C116; 0x1E376C08; 0x2748774C; 0x34B0BCB5;
   0x391C0CB3; 0x4ED8AA4A; 0x5B9CCA4F; 0x682E6FF3;
   0x748F82EE; 0x78A5636F; 0x84C87814; 0x8CC70208;
   0x90BEFFFA; 0xA4506CEB; 0xBEF9A3F7; 0xC67178F2].

(** The eight working variables, and the chaining value. *)
Record State : Type := mkState {
  sa : Z; sb : Z; sc : Z; sd : Z; se : Z; sf : Z; sg : Z; sh : Z
}.

Definition H0 : State :=
  mkState 0x6A09E667 0xBB67AE85 0x3C6EF372 0xA54FF53A
          0x510E527F 0x9B05688C 0x1F83D9AB 0x5BE0CD19.

(** Padding: a [1] bit, zeros up to 56 modulo 64 bytes, then the length
    in bits as a 64-bit big-endian integer. *)
Definition be_bytes (n : nat) (x : Z) : list Z :=
  map (fun i => Z.land (Z.shiftr x (8 * Z.of_nat i)) 0xff) (rev (seq 0 n)).

Definition pad (msg : list Z) : list Z :=
  let len := Z.of_nat (List.length msg) in
  msg ++ [0x80] ++ repeat 0 (Z.to_nat ((55 - len) mod 64))
      ++ be_bytes 8 (8 * len).

Definition be_word (b0 b1 b2 b3 : Z) : Z :=
  Z.lor (Z.lor (Z.shiftl b0 24) (Z.shiftl b1 16))
        (Z.lor (Z.shiftl b2 8) b3).

Fixpoint words (bytes : list Z) : list Z :=
  match bytes with
  | b0 :: b1 :: b2 :: b3 :: rest => be_word b0 b1 b2 b3 :: words rest
  | _ => []
  end.

(** [blocks n ws]: the first [n] blocks of sixteen words. *)
Fixpoint blocks (n : nat) (ws : list Z) : list (list Z) :=
  match n with
  | O => []
  | S n' => firstn 16 ws :: blocks n' (skipn 16 ws)
  end.

(** The message schedule, most recent word first while it is built. *)
Fixpoint extend (n : nat) (rw : list Z) : list Z :=
  match n with
  | O => rw
  | S n' =>
      let w := add32 (add32 (sigma1 (nth 1 rw 0)) (nth 6 rw 0))
                     (add32 (sigma0 (nth 14 rw 0)) (nth 15 rw 0)) in
      extend n' (w :: rw)
  end.

Definition schedule (block : list Z) : list Z :=
  rev (extend 48 (rev block)).

Definition round (s : State) (kw : Z * Z) : State :=
  let t1 := add32 (add32 (add32 (sh s) (Sigma1 (se s)))
                         (add32 (Ch (se s) (sf s) (sg s)) (fst kw)))
                  (snd kw) in
  let t2 := add32 (Sigma0 (sa s)) (Maj (sa s) (sb s) (sc s)) in
  mkState (add32 t1 t2) (sa s) (sb s) (sc s)
          (add32 (sd s) t1) (se s) (sf s) (sg s).

Definition compress (h : State) (block : list Z) : State :=
  let s := fold_left round (combine K (schedule block)) h in
  mkState (add32 (sa h) (sa s)) (add32 (sb h) (sb s))
          (add32 (sc h) (sc s)) (add32 (sd h) (sd s))
          (add32 (se h) (se s)) (add32 (sf h) (sf s))
          (add32 (sg h) (sg s)) (add32 (sh h) (sh s)).

Definition digest (msg : list Z) : State :=
  let padded := pad msg in
  fold_left compress
            (blocks (List.length padded / 64)%nat (words padded)) H0.

Definition hexdigits : list ascii :=
  ["0"; "1"; "2"; "3"; "4"; "5"; "6"; "7";
   "8"; "9"; "a"; "b"; "c"; "d"; "e"; "f"]%char.

Definition hexdigit (x : Z) : ascii :=
  nth (Z.to_nat (Z.land x 15)) hexdigits "0"%char.

Definition word_hex (w : Z) : list ascii :=
  [hexdigit (Z.shiftr w 28); hexdigit (Z.shiftr w 24);
   hexdigit (Z.shiftr w 20); hexdigit (Z.shiftr w 16);
   hexdigit (Z.shiftr w 12); hexdigit (Z.shiftr w 8);
   hexdigit (Z.shiftr w 4); hexdigit w].

Definition state_hex (s : State) : list ascii :=
  word_hex (sa s) ++ word_hex (sb s) ++ word_hex (sc s) ++ word_hex (sd s)
    ++ word_hex (se s) ++ word_hex (sf s) ++ word_hex (sg s)
    ++ word_hex (sh s).

Definition utf8_bytes (text : string) : list Z :=
  map (fun b => Z.of_N (Byte.to_N b)) (list_byte_of_string text).

Definition hex (text : string) : string :=
  string_of_list_ascii (state_hex (digest (utf8_bytes text))).

(** The characters [digest('hex')] may produce. *)
Definition is_lower_hex (c : ascii) : bool :=
  existsb (Ascii.eqb c) hexdigits.

End SHA256.

(* ================================================================== *)
(** * The operation and fragment assembler *)

(** [Array.prototype.join]. *)
Fixpoint join (sep : string) (l : list string) : string :=
  match l with
  | [] => EmptyString
  | [x] => x
  | x :: rest => String.append x (String.append sep (join sep rest))
  end.

(** ['\n'] *)
Definition newline : string := String (ascii_of_nat 10) EmptyString.

Record CompiledOperation : Type := mkCompiledOperation {
  co_filePath : option string;
  co_operationName : string;
  co_operationType : string;
  co_rootType : GraphQLObjectType;
  co_variables : list (string * GraphQLType);
  co_source : string;
  co_body : LegacySelectionSet;
    (** [fields], [fragmentSpreads] and [inlineFragments], spread in *)
  co_fragmentsReferenced : list string;
  co_sourceWithFragments : option string;
  co_operationId : option string
}.

Record CompiledFragment : Type := mkCompiledFragment {
  cf_typeCondition : string;
  cf_possibleTypes : list GraphQLObjectType;
  cf_filePath : option string;
  cf_fragmentName : string;
  cf_source : string;
  cf_body : LegacySelectionSet
}.

(** [operations] and [fragments] are objects made by [Object.create({})]
    and filled by assignment: [lc_operations] and [lc_fragments] are their
    own entries, [lc_operations_proto] and [lc_fragments_proto] the record
    that replaced their prototype, if any (see [obj_assign]). *)
Record CompilationContext (Schema : Type) : Type := mkCompilationContext {
  lc_schema : Schema;
  lc_operations : JSObject CompiledOperation;
  lc_operations_proto : option CompiledOperation;
  lc_fragments : JSObject CompiledFragment;
  lc_fragments_proto : option CompiledFragment;
  lc_typesUsed : list GraphQLType;
  lc_options : CompilerOptions
}.
Arguments mkCompilationContext {Schema}.
Arguments lc_schema {Schema}.
Arguments lc_operations {Schema}.
Arguments lc_operations_proto {Schema}.
Arguments lc_fragments {Schema}.
Arguments lc_fragments_proto {Schema}.
Arguments lc_typesUsed {Schema}.
Arguments lc_options {Schema}.

(** The default value of the [options] parameter. *)
Definition defaultOptions : CompilerOptions :=
  mkCompilerOptions None (Some true) None None None None.

(** The [options] parameter with its default applied. *)
Definition effectiveOptions (optionsArg : option CompilerOptions)
  : CompilerOptions :=
  match optionsArg with Some o => o | None => defaultOptions end.

Section Assembler.

Variables Schema DocumentNode : Type.

Variable mergeInFragmentSpreads :
  NewCompilationContext Schema -> SelectionSet -> SelectionSet.
Variable newTypeCase : SelectionSet -> TypeCase.

(** [compileToIR] of [./index.ts] and [collectFragmentsReferenced] of
    [./visitors/collectFragmentsReferenced] (already turned into an
    array by [Array.from]), consumed as black boxes. *)
Variable compileToIR :
  Schema -> DocumentNode -> CompilerOptions -> NewCompilationContext Schema.
Variable collectFragmentsReferenced :
  NewCompilationContext Schema -> SelectionSet -> list string.

(** [context.fragments[fragmentName].source]: reading [source] off a
    missing entry is a [TypeError]. *)
Definition fragmentSource (context : NewCompilationContext Schema)
    (fragmentName : string) : Result string :=
  match obj_get fragmentName (nc_fragments context) with
  | Some fragment => Ok (fr_source fragment)
  | None => Throw (UndefinedPropertyRead "source")
  end.

(** The body of the loop over [Object.entries(context.operations)]. *)
Definition compileOperation (fuel : nat)
    (context : NewCompilationContext Schema)
    (operationName : string) (operation : Operation)
  : Result CompiledOperation :=
  let fragmentsReferenced :=
    collectFragmentsReferenced context (op_selectionSet operation) in
  sources <- mapM (fragmentSource context) fragmentsReferenced ;;
  let sourceWithFragments := join newline (op_source operation :: sources) in
  let operationId := SHA256.hex sourceWithFragments in
  body <- transformSelectionSetToLegacyIR Schema mergeInFragmentSpreads
            newTypeCase fuel context (op_selectionSet operation) ;;
  Ok (mkCompiledOperation (op_filePath operation) operationName
        (op_operationType operation) (op_rootType operation)
        (op_variables operation) (op_source operation) body
        fragmentsReferenced (Some sourceWithFragments) (Some operationId)).

(** The body of the loop over [Object.entries(context.fragments)]. *)
Definition compileFragment (fuel : nat)
    (context : NewCompilationContext Schema)
    (fragmentName : string) (fragment : Fragment)
  : Result CompiledFragment :=
  body <- transformSelectionSetToLegacyIR Schema mergeInFragmentSpreads
            newTypeCase fuel context (fr_selectionSet fragment) ;;
  Ok (mkCompiledFragment (fr_type fragment)
        (ss_possibleTypes (fr_selectionSet fragment))
        (fr_filePath fragment) (fr_fragmentName fragment)
        (fr_source fragment) body).

(** [o[k] = v] on an object made by [Object.create({})], held as its own
    entries and the value that replaced its prototype, if any: the key
    ["__proto__"] reaches the setter of [Object.prototype], which replaces
    the prototype and stores no entry; any other key becomes (or
    overwrites) an entry. *)
Definition obj_assign {A : Type} (k : string) (v : A)
    (o : JSObject A * option A) : JSObject A * option A :=
  if String.eqb k "__proto__" then (fst o, Some v)
  else (obj_set k v (fst o), snd o).

(** The keys under which such an assignment stores an entry, and the
    entries of an object that have such a key. *)
Definition isOwnKey (k : string) : bool := negb (String.eqb k "__proto__").

Definition ownEntries {A : Type} (o : JSObject A) : JSObject A :=
  filter (fun entry => isOwnKey (fst entry)) o.

(** A [for (const [key, value] of Object.entries(o))] loop that assigns
    one compiled record per entry under the entry's key to an object made
    by [Object.create({})]; [entryStep] is one turn of it. *)
Definition entryStep {A B : Type} (body : string -> A -> Result B)
    (acc : Result (JSObject B * option B)) (entry : string * A)
  : Result (JSObject B * option B) :=
  out <- acc ;;
  b <- body (fst entry) (snd entry) ;;
  Ok (obj_assign (fst entry) b out).

Definition forEntries {A B : Type} (body : string -> A -> Result B)
    (o : JSObject A) : Result (JSObject B * option B) :=
  fold_left (entryStep body) o (Ok ([], None)).

Definition compileToLegacyIR (fuel : nat) (schema : Schema)
    (document : DocumentNode) (optionsArg : option CompilerOptions)
  : Result (CompilationContext Schema) :=
  let options := effectiveOptions optionsArg in
  let context := compileToIR schema document options in
  operations <- forEntries (compileOperation fuel context)
                  (nc_operations context) ;;
  fragments <- forEntries (compileFragment fuel context)
                 (nc_fragments context) ;;
  Ok (mkCompilationContext (nc_schema context)
        (fst operations) (snd operations) (fst fragments) (snd fragments)
        (nc_typesUsed context) options).

(** The conditions under which the compilation is shown to return: the
    lowering's two conditions, every selection set of the document nested
    less than [bound] deep, and every fragment name of every closure
    defined. *)
Definition compilable (context : NewCompilationContext Schema)
    (rank : SelectionSet -> nat) (bound : nat) : Prop :=
  nestingDecreases Schema mergeInFragmentSpreads newTypeCase context rank
  /\ noTypeNamedLength Schema mergeInFragmentSpreads newTypeCase context
  /\ (forall operationName operation,
         In (operationName, operation) (nc_operations context) ->
         rank (op_selectionSet operation) < bound
         /\ forall fragmentName,
              In fragmentName
                 (collectFragmentsReferenced context
                    (op_selectionSet operation)) ->
              obj_get fragmentName (nc_fragments context) <> None)
  /\ (forall fragmentName fragment,
         In (fragmentName, fragment) (nc_fragments context) ->
         rank (fr_selectionSet fragment) < bound).

End Assembler.

(* ================================================================== *)
(** * The specification's wording, for comparison *)

(** The operation's own source followed by each referenced fragment's
    source, every fragment source preceded by one separating newline. *)
Definition sourceFollowedBy (own : string) (fragmentSources : list string)
  : string :=
  fold_left (fun text s => String.append text (String.append newline s))
            fragmentSources own.

(** The last inline fragment of an array whose type condition is named
    [n]. *)
Definition lastNamed (n : string) (l : list CompiledInlineFragment)
  : option CompiledInlineFragment :=
  find (fun f => String.eqb (ot_name (cif_typeCondition f)) n) (rev l).

(* ================================================================== *)
(** * Accessors and measures used by the further properties *)

Definition fd_responseName (f : Field) : string :=
  match f with mkField r _ _ _ _ _ _ _ _ => r end.
Definition fd_fieldName (f : Field) : string :=
  match f with mkField _ n _ _ _ _ _ _ _ => n end.
Definition fd_type (f : Field) : GraphQLType :=
  match f with mkField _ _ t _ _ _ _ _ _ => t end.
Definition fd_args (f : Field) : option (list Argument) :=
  match f with mkField _ _ _ a _ _ _ _ _ => a end.
Definition fd_isConditional (f : Field) : option bool :=
  match f with mkField _ _ _ _ c _ _ _ _ => c end.
Definition fd_description (f : Field) : option string :=
  match f with mkField _ _ _ _ _ d _ _ _ => d end.
Definition fd_isDeprecated (f : Field) : option bool :=
  match f with mkField _ _ _ _ _ _ d _ _ => d end.
Definition fd_deprecationReason (f : Field) : option string :=
  match f with mkField _ _ _ _ _ _ _ r _ => r end.
Definition fd_nested (f : Field) : option LegacySelectionSet :=
  match f with mkField _ _ _ _ _ _ _ _ n => n end.

(** How deep type conditions and boolean conditions are nested in a
    selection set (fields do not count). *)
Fixpoint conditionDepth (selectionSet : SelectionSet) : nat :=
  S (list_max
       (map (fun selection =>
               match selection with
               | STypeCondition _ sub => conditionDepth sub
               | SBooleanCondition _ _ sub => conditionDepth sub
               | _ => 0
               end)
            (ss_selections selectionSet))).

(** The selection set with every field selection removed, at every level
    of type and boolean conditions. *)
Fixpoint withoutFields (selectionSet : SelectionSet) : SelectionSet :=
  mkSelectionSet (ss_possibleTypes selectionSet)
    (flat_map
       (fun selection =>
          match selection with
          | SField _ => []
          | SFragmentSpread fs => [SFragmentSpread fs]
          | STypeCondition ty sub => [STypeCondition ty (withoutFields sub)]
          | SBooleanCondition v inverted sub =>
              [SBooleanCondition v inverted (withoutFields sub)]
          end)
       (ss_selections selectionSet)).

(** The keys of an object, in enumeration order. *)
Definition obj_keys {A : Type} (o : JSObject A) : list string := map fst o.

(** A selection set with one place marked in it.  The place is reached
    from the top through type conditions and boolean conditions only,
    never through a field, and lies between the selections [pre] and
    [post] of the selection set it is in. *)
Inductive Place : Type :=
| PlaceHere (possibleTypes : list GraphQLObjectType)
            (pre post : list Selection)
| PlaceUnderType (possibleTypes : list GraphQLObjectType)
                 (pre : list Selection) (type : string) (inner : Place)
                 (post : list Selection)
| PlaceUnderBoolean (possibleTypes : list GraphQLObjectType)
                    (pre : list Selection) (variableName : string)
                    (inverted : bool) (inner : Place)
                    (post : list Selection).

(** The selection set that has the selections [filling] at the place. *)
Fixpoint plug (place : Place) (filling : list Selection) : SelectionSet :=
  match place with
  | PlaceHere pts pre post => mkSelectionSet pts (pre ++ filling ++ post)
  | PlaceUnderType pts pre ty inner post =>
      mkSelectionSet pts
        (pre ++ STypeCondition ty (plug inner filling) :: post)
  | PlaceUnderBoolean pts pre v inverted inner post =>
      mkSelectionSet pts
        (pre ++ SBooleanCondition v inverted (plug inner filling) :: post)
  end.

(** Every type condition passed on the way from the top to the place has
    all the types of [target] among its possible types. *)
Fixpoint wayCovers (target : list GraphQLObjectType) (place : Place) : Prop :=
  match place with
  | PlaceHere _ _ _ => True
  | PlaceUnderType _ _ _ inner _ =>
      incl target (ss_possibleTypes (plug inner [])) /\ wayCovers target inner
  | PlaceUnderBoolean _ _ _ _ inner _ => wayCovers target inner
  end.

(* ================================================================== *)
(** * Fixtures: stand-ins for the collaborators, and sample documents *)

Module Fixture.

Definition Dog : GraphQLObjectType := mkObjectType "Dog".
Definition Cat : GraphQLObjectType := mkObjectType "Cat".
Definition Bird : GraphQLObjectType := mkObjectType "Bird".

Definition scalarField (n : string) : NewField :=
  mkNewField n None None (GraphQLNamed "String") None None None None None.

Definition objectField (n : string) (sub : SelectionSet) : NewField :=
  mkNewField n None None (GraphQLNamed "Pet") None None None None (Some sub).

Definition spread (n : string) : Selection :=
  SFragmentSpread (mkFragmentSpread n).

Definition directFields (sels : list Selection) : list NewField :=
  flat_map (fun s => match s with SField f => [f] | _ => [] end) sels.

(** A plain partitioner: the default record holds the direct fields, and
    every direct inline type condition gives one extra record holding
    that condition's direct fields. *)
Definition directTypeCase (selectionSet : SelectionSet) : TypeCase :=
  let recordOf pts sels :=
    mkTypeCaseRecord pts (List.length (directFields sels))
                     (directFields sels) in
  mkTypeCase
    (recordOf (ss_possibleTypes selectionSet) (ss_selections selectionSet))
    (flat_map
       (fun s =>
          match s with
          | STypeCondition _ sub =>
              [recordOf (ss_possibleTypes sub) (ss_selections sub)]
          | _ => []
          end)
       (ss_selections selectionSet)).

(** A partitioner that ignores the selection set and answers with given
    extra records. *)
Definition fixedTypeCase (records : list TypeCaseRecord)
    (_ : SelectionSet) : TypeCase :=
  mkTypeCase (mkTypeCaseRecord [] 0 []) records.

Definition noMerge (_ : NewCompilationContext unit) (s : SelectionSet)
  : SelectionSet := s.

Definition options (generateIds : option bool) : CompilerOptions :=
  mkCompilerOptions None None None None None generateIds.

Definition emptyContext : NewCompilationContext unit :=
  mkNewContext tt [] [] [] (options None).

(** An upstream compilation that answers with the given operations and
    fragments and records the options it was called with. *)
Definition upstream (ops : JSObject Operation) (frags : JSObject Fragment)
    (_ : unit) (_ : unit) (o : CompilerOptions) : NewCompilationContext unit :=
  mkNewContext tt ops frags [] o.

(** A closure collector that reports the spreads visible at the top of
    the selection set. *)
Definition visibleSpreads (context : NewCompilationContext unit)
    (s : SelectionSet) : list string :=
  map fragmentName (collectFragmentSpreads context s None).

(** [{ name ... on Dog { barkVolume } ... on Cat { lives ...CatFields } }]
    on the possible types [Dog] and [Cat]. *)
Definition petSelection : SelectionSet :=
  mkSelectionSet [Dog; Cat]
    [SField (scalarField "name");
     STypeCondition "Dog"
       (mkSelectionSet [Dog] [SField (scalarField "barkVolume")]);
     STypeCondition "Cat"
       (mkSelectionSet [Cat]
          [SField (scalarField "lives"); spread "CatFields"])].

(** The same with [...CatFields] also spread at the top. *)
Definition petSelectionTwice : SelectionSet :=
  mkSelectionSet [Dog; Cat]
    (spread "CatFields" :: ss_selections petSelection).

(** [{ name ... on Cat { lives ... @include(if: $detailed) { ...CatFields } } }]
    on the possible types [Dog] and [Cat]: the spread sits under a boolean
    condition inside the type condition. *)
Definition conditionalCatSelection : SelectionSet :=
  mkSelectionSet [Dog; Cat]
    [SField (scalarField "name");
     STypeCondition "Cat"
       (mkSelectionSet [Cat]
          [SField (scalarField "lives");
           SBooleanCondition "detailed" false
             (mkSelectionSet [Cat] [spread "CatFields"])])].

(** [{ name ... on Cat { lives } ... on Climber { climbs } }] on the
    possible types [Dog], [Cat] and [Bird], the interface [Climber] being
    implemented by [Cat] and [Bird]. *)
Definition climberSelection : SelectionSet :=
  mkSelectionSet [Dog; Cat; Bird]
    [SField (scalarField "name");
     STypeCondition "Cat"
       (mkSelectionSet [Cat] [SField (scalarField "lives")]);
     STypeCondition "Climber"
       (mkSelectionSet [Cat; Bird] [SField (scalarField "climbs")])].

(** Object types called [length] and [__proto__]. *)
Definition LengthType : GraphQLObjectType := mkObjectType "length".
Definition ProtoType : GraphQLObjectType := mkObjectType "__proto__".

(** [{ name ... on Sized { size } }] on the possible types [Dog], [Cat]
    and [length], the interface [Sized] being implemented by [Cat] and
    [length]. *)
Definition sizedSelection : SelectionSet :=
  mkSelectionSet [Dog; Cat; LengthType]
    [SField (scalarField "name");
     STypeCondition "Sized"
       (mkSelectionSet [Cat; LengthType] [SField (scalarField "size")])].

(** [{ name ... on length { unit } }] on the possible types [Dog] and
    [length]. *)
Definition lengthSelection : SelectionSet :=
  mkSelectionSet [Dog; LengthType]
    [SField (scalarField "name");
     STypeCondition "length"
       (mkSelectionSet [LengthType] [SField (scalarField "unit")])].

(** [{ name ... on __proto__ { chain } }] on the possible types [Dog] and
    [__proto__]. *)
Definition protoSelection : SelectionSet :=
  mkSelectionSet [Dog; ProtoType]
    [SField (scalarField "name");
     STypeCondition "__proto__"
       (mkSelectionSet [ProtoType] [SField (scalarField "chain")])].

Definition operation (src : string) (s : SelectionSet) : Operation :=
  mkOperation None "Q" "query" (mkObjectType "Query") [] src s.

Definition fragment (n src : string) (s : SelectionSet) : Fragment :=
  mkFragment None n src "Cat" s.

(** One operation [Q] spreading [CatFields], and that fragment. *)
Definition sampleOperations : JSObject Operation :=
  [("Q"%string,
    operation "query Q { ...CatFields }"
              (mkSelectionSet [Cat] [spread "CatFields"]))].

Definition sampleFragments : JSObject Fragment :=
  [("CatFields"%string,
    fragment "CatFields" "fragment CatFields on Cat { lives }"
             (mkSelectionSet [Cat] [SField (scalarField "lives")]))].

(** Two operations and two fragments, the second of each called
    [__proto__]. *)
Definition operationsWithProto : JSObject Operation :=
  [("Q"%string,
    operation "query Q { name }"
              (mkSelectionSet [Cat] [SField (scalarField "name")]));
   ("__proto__"%string,
    operation "query __proto__ { lives }"
              (mkSelectionSet [Cat] [SField (scalarField "lives")]))].

Definition fragmentsWithProto : JSObject Fragment :=
  [("CatFields"%string,
    fragment "CatFields" "fragment CatFields on Cat { lives }"
             (mkSelectionSet [Cat] [SField (scalarField "lives")]));
   ("__proto__"%string,
    fragment "__proto__" "fragment __proto__ on Cat { name }"
             (mkSelectionSet [Cat] [SField (scalarField "name")]))].

(** [sampleOperations] compiled with the stand-in collaborators. *)
Definition compileSample (frags : JSObject Fragment)
    (optionsArg : option CompilerOptions)
  : Result (CompilationContext unit) :=
  compileToLegacyIR unit unit noMerge directTypeCase
    (upstream sampleOperations frags) visibleSpreads 2 tt tt optionsArg.

End Fixture.

(* ================================================================== *)
(** * Auxiliary facts on lists, objects and exceptions *)

Lemma objectType_eqb_eq (a b : GraphQLObjectType) :
  objectType_eqb a b = true <-> a = b.
Proof.
  destruct a as [x], b as [y]; unfold objectType_eqb; simpl.
  rewrite String.eqb_eq. split; intro H; [now subst | now inversion H].
Qed.

Lemma includes_In (l : list GraphQLObjectType) (t : GraphQLObjectType) :
  includes l t = true <-> In t l.
Proof.
  unfold includes. rewrite existsb_exists. split.
  - intros (x & Hx & E). apply objectType_eqb_eq in E. now subst.
  - intro H. exists t. split; [assumption | now apply objectType_eqb_eq].
Qed.

(** The test of the classifier and of the record filter is the superset
    relation between possible-type lists. *)
Lemma every_includes_incl (sup sub : list GraphQLObjectType) :
  every (fun t => includes sup t) sub = true <-> incl sub sup.
Proof.
  unfold every. rewrite forallb_forall. unfold incl.
  split; intros H t Ht; apply includes_In; auto.
Qed.

Lemma every_includes_not_incl (sup sub : list GraphQLObjectType) :
  every (fun t => includes sup t) sub = false <-> ~ incl sub sup.
Proof.
  rewrite <- every_includes_incl.
  destruct (every _ sub); split; intro H; congruence.
Qed.

Lemma fold_left_push {A B : Type} (g : A -> list B) (l : list A) (acc : list B) :
  fold_left (fun a x => a ++ g x) l acc = acc ++ flat_map g l.
Proof.
  revert acc; induction l as [|x l IH]; intro acc; simpl.
  - now rewrite app_nil_r.
  - rewrite IH. now rewrite app_assoc.
Qed.

Lemma fold_left_ext_in {A B : Type} (f g : B -> A -> B) (l : list A) :
  (forall b a, f b a = g b a) ->
  forall acc, fold_left f l acc = fold_left g l acc.
Proof.
  intros E. induction l as [|x l IH]; intro acc; simpl; [reflexivity|].
  rewrite E. apply IH.
Qed.

(* ================================================================== *)
(** * The classifier, selection by selection *)

Lemma collectFragmentSpreads_flat_map {Schema : Type}
    (context : NewCompilationContext Schema) (selectionSet : SelectionSet)
    (arg : option (list GraphQLObjectType)) :
  collectFragmentSpreads context selectionSet arg
  = flat_map (contribution context (target_of selectionSet arg))
             (ss_selections selectionSet).
Proof.
  destruct selectionSet as [pts sels]; simpl.
  set (target := match arg with Some p => p | None => pts end).
  change (target_of (mkSelectionSet pts sels) arg) with target.
  rewrite <- (app_nil_l (flat_map _ sels)).
  rewrite <- fold_left_push.
  apply fold_left_ext_in.
  intros acc [f|fs|ty sub|v i sub]; simpl; try reflexivity.
  - now rewrite app_nil_r.
  - destruct (every _ target); [reflexivity | now rewrite app_nil_r].
Qed.

Lemma collectFragmentSpreads_app {Schema : Type}
    (context : NewCompilationContext Schema)
    (pts : list GraphQLObjectType) (pre post : list Selection)
    (arg : option (list GraphQLObjectType)) :
  collectFragmentSpreads context (mkSelectionSet pts (pre ++ post)) arg
  = collectFragmentSpreads context (mkSelectionSet pts pre) arg
    ++ collectFragmentSpreads context (mkSelectionSet pts post) arg.
Proof.
  rewrite !collectFragmentSpreads_flat_map. simpl ss_selections.
  rewrite flat_map_app. reflexivity.
Qed.

Lemma collectFragmentSpreads_cons {Schema : Type}
    (context : NewCompilationContext Schema)
    (pts : list GraphQLObjectType) (s : Selection) (post : list Selection)
    (arg : option (list GraphQLObjectType)) :
  collectFragmentSpreads context (mkSelectionSet pts (s :: post)) arg
  = contribution context (target_of (mkSelectionSet pts []) arg) s
    ++ collectFragmentSpreads context (mkSelectionSet pts post) arg.
Proof.
  rewrite !collectFragmentSpreads_flat_map. reflexivity.
Qed.

Lemma collectFragmentSpreads_spreads_only {Schema : Type}
    (context : NewCompilationContext Schema)
    (pts : list GraphQLObjectType) (l : list FragmentSpread)
    (arg : option (list GraphQLObjectType)) :
  collectFragmentSpreads context (mkSelectionSet pts (map SFragmentSpread l)) arg
  = l.
Proof.
  rewrite collectFragmentSpreads_flat_map.
  unfold target_of. simpl ss_selections. simpl ss_possibleTypes.
  induction l as [|fs l IH]; simpl; [reflexivity | now rewrite IH].
Qed.

(** C1.  Whatever the selection set and the target subset, the classifier
    walks the direct selections from left to right, and a selection found
    between the selections [pre] and [post] adds, between what [pre] and
    [post] add: itself when it is a named fragment reference; what the walk
    of its own selection set adds, for the same target, when it is a
    boolean condition; the same when it is a type condition whose possible
    types include every type of the target, and nothing when they do not;
    nothing when it is a field.  Nothing is deduplicated: a selection set
    made of named references alone gives back exactly those references. *)
Theorem collectFragmentSpreads_classification :
  forall (Schema : Type) (context : NewCompilationContext Schema)
         (pts : list GraphQLObjectType) (pre post : list Selection)
         (arg : option (list GraphQLObjectType)),
    let target := match arg with Some p => p | None => pts end in
    let collect sels :=
      collectFragmentSpreads context (mkSelectionSet pts sels) arg in
    collect [] = []
    /\ (forall fs,
          collect (pre ++ SFragmentSpread fs :: post)
          = collect pre ++ fs :: collect post)
    /\ (forall ty sub,
          incl target (ss_possibleTypes sub) ->
          collect (pre ++ STypeCondition ty sub :: post)
          = collect pre
              ++ collectFragmentSpreads context sub (Some target)
              ++ collect post)
    /\ (forall ty sub,
          ~ incl target (ss_possibleTypes sub) ->
          collect (pre ++ STypeCondition ty sub :: post)
          = collect pre ++ collect post)
    /\ (forall v inverted sub,
          collect (pre ++ SBooleanCondition v inverted sub :: post)
          = collect pre
              ++ collectFragmentSpreads context sub (Some target)
              ++ collect post)
    /\ (forall f, collect (pre ++ SField f :: post) = collect pre ++ collect post)
    /\ (forall l, collect (map SFragmentSpread l) = l).
Proof.
  intros Schema context pts pre post arg target collect. unfold collect.
  repeat split.
  - intros fs. rewrite collectFragmentSpreads_app, collectFragmentSpreads_cons.
    reflexivity.
  - intros ty sub Hsup.
    rewrite collectFragmentSpreads_app, collectFragmentSpreads_cons.
    change (target_of (mkSelectionSet pts []) arg) with target.
    simpl contribution.
    apply every_includes_incl in Hsup. rewrite Hsup. reflexivity.
  - intros ty sub Hsup.
    rewrite collectFragmentSpreads_app, collectFragmentSpreads_cons.
    change (target_of (mkSelectionSet pts []) arg) with target.
    simpl contribution.
    apply every_includes_not_incl in Hsup. rewrite Hsup. reflexivity.
  - intros v inverted sub.
    rewrite collectFragmentSpreads_app, collectFragmentSpreads_cons.
    change (target_of (mkSelectionSet pts []) arg) with target.
    reflexivity.
  - intros f. rewrite collectFragmentSpreads_app, collectFragmentSpreads_cons.
    reflexivity.
  - intros l. apply collectFragmentSpreads_spreads_only.
Qed.

Lemma collectFragmentSpreads_classification_witness :
  incl [Fixture.Cat] [Fixture.Cat]
  /\ collectFragmentSpreads Fixture.emptyContext
       (mkSelectionSet [Fixture.Dog; Fixture.Cat]
          ([Fixture.spread "A"]
             ++ STypeCondition "Cat"
                  (mkSelectionSet [Fixture.Cat] [Fixture.spread "B"])
             :: [Fixture.spread "A"]))
       (Some [Fixture.Cat])
     = [mkFragmentSpread "A"; mkFragmentSpread "B"; mkFragmentSpread "A"].
Proof.
  split.
  - apply incl_refl.
  - pose proof (collectFragmentSpreads_classification unit
                  Fixture.emptyContext [Fixture.Dog; Fixture.Cat]
                  [Fixture.spread "A"] [Fixture.spread "A"]
                  (Some [Fixture.Cat])) as H.
    destruct H as (_ & _ & H & _).
    refine (eq_trans
              (H "Cat"%string
                 (mkSelectionSet [Fixture.Cat] [Fixture.spread "B"])
                 (incl_refl _)) _).
    reflexivity.
Defined.

(* ================================================================== *)
(** * Exceptions, maps over arrays, and objects *)

Lemma bind_Ok_inv {A B : Type} (m : Result A) (k : A -> Result B) (b : B) :
  bind m k = Ok b -> exists a, m = Ok a /\ k a = Ok b.
Proof.
  destruct m as [a|e]; simpl; intro H; [eauto | discriminate].
Qed.

Lemma bind_Ok_intro {A B : Type} (m : Result A) (k : A -> Result B)
    (a : A) (b : B) :
  m = Ok a -> k a = Ok b -> bind m k = Ok b.
Proof. intros -> H. exact H. Qed.

Lemma bind_Throw {A B : Type} (m : Result A) (k : A -> Result B) (e : Error) :
  m = Throw e -> bind m k = Throw e.
Proof. intros ->. reflexivity. Qed.

Lemma mapM_Ok_Forall2 {A B : Type} (f : A -> Result B) (l : list A)
    (l' : list B) :
  mapM f l = Ok l' <-> Forall2 (fun x y => f x = Ok y) l l'.
Proof.
  revert l'. induction l as [|x l IH]; intros l'; simpl.
  - split; intro H.
    + injection H as <-. constructor.
    + inversion H. reflexivity.
  - split; intro H.
    + apply bind_Ok_inv in H. destruct H as (y & Hy & H).
      apply bind_Ok_inv in H. destruct H as (ys & Hys & H).
      injection H as <-. constructor; [assumption | now apply IH].
    + inversion H as [|? y ? ys Hy Hys]; subst.
      rewrite Hy. simpl. apply IH in Hys. rewrite Hys. reflexivity.
Qed.

Lemma mapM_ext {A B : Type} (f g : A -> Result B) (l : list A) :
  (forall x, f x = g x) -> mapM f l = mapM g l.
Proof.
  intro E. induction l as [|x l IH]; simpl; [reflexivity|].
  now rewrite E, IH.
Qed.

Lemma mapM_mono {A B : Type} (f g : A -> Result B) (l : list A) (l' : list B) :
  (forall x y, f x = Ok y -> g x = Ok y) ->
  mapM f l = Ok l' -> mapM g l = Ok l'.
Proof.
  intros M H. apply mapM_Ok_Forall2 in H. apply mapM_Ok_Forall2.
  induction H; constructor; auto.
Qed.

Lemma mapM_total {A B : Type} (f : A -> Result B) (l : list A) :
  (forall x, In x l -> exists y, f x = Ok y) -> exists l', mapM f l = Ok l'.
Proof.
  induction l as [|x l IH]; intro H; simpl.
  - now exists [].
  - destruct (H x (or_introl eq_refl)) as (y & Hy).
    destruct IH as (ys & Hys); [intros; apply H; now right|].
    exists (y :: ys). now rewrite Hy, Hys.
Qed.

Lemma find_app_first {A : Type} (p : A -> bool) (l1 l2 : list A) :
  find p (l1 ++ l2)
  = match find p l1 with Some x => Some x | None => find p l2 end.
Proof.
  induction l1 as [|x l1 IH]; simpl; [reflexivity|].
  destruct (p x); [reflexivity | exact IH].
Qed.

Lemma obj_get_set {A : Type} (k k' : string) (v : A) (o : JSObject A) :
  obj_get k (obj_set k' v o) = if String.eqb k k' then Some v else obj_get k o.
Proof.
  induction o as [|[k0 v0] o IH]; simpl.
  - reflexivity.
  - destruct (String.eqb_spec k' k0) as [->|N]; simpl.
    + destruct (String.eqb k k0); reflexivity.
    + rewrite IH. destruct (String.eqb_spec k k0) as [->|N'].
      * destruct (String.eqb_spec k0 k'); [congruence | reflexivity].
      * reflexivity.
Qed.

Lemma obj_set_In {A : Type} (k k' : string) (v v' : A) (o : JSObject A) :
  In (k, v) (obj_set k' v' o) -> (k = k' /\ v = v') \/ In (k, v) o.
Proof.
  induction o as [|[k0 v0] o IH]; simpl.
  - intros [H|[]]. injection H as <- <-. now left.
  - destruct (String.eqb k' k0); simpl.
    + intros [H|H]; [injection H as <- <-; now left | right; now right].
    + intros [H|H]; [right; now left|].
      destruct (IH H) as [?|?]; [now left | right; now right].
Qed.

(* ================================================================== *)
(** * The name index on the inline-fragment array *)

Lemma indexStep_fold_Throw (l : list CompiledInlineFragment) (e : Error) :
  fold_left indexStep l (Throw e) = Throw e.
Proof. induction l; simpl; auto. Qed.

Lemma lastNamed_cons (k : string) (f : CompiledInlineFragment)
    (l : list CompiledInlineFragment) :
  lastNamed k (f :: l)
  = match lastNamed k l with
    | Some g => Some g
    | None => if String.eqb (ot_name (cif_typeCondition f)) k
              then Some f else None
    end.
Proof.
  unfold lastNamed. simpl rev. rewrite find_app_first.
  destruct (find _ (rev l)); [reflexivity|]. simpl.
  now destruct (String.eqb (ot_name (cif_typeCondition f)) k).
Qed.

Lemma indexStep_fold_Ok (l : list CompiledInlineFragment)
    (arr0 arr : JSArray CompiledInlineFragment) :
  fold_left indexStep l (Ok arr0) = Ok arr ->
  elems arr = elems arr0
  /\ Forall (fun f => ot_name (cif_typeCondition f) <> "length"%string) l
  /\ (forall k,
         k <> "__proto__"%string ->
         obj_get k (props arr)
         = match lastNamed k l with
           | Some f => Some f
           | None => obj_get k (props arr0)
           end)
  /\ obj_get "__proto__" (props arr) = obj_get "__proto__" (props arr0)
  /\ proto arr
     = match lastNamed "__proto__" l with
       | Some f => Some f
       | None => proto arr0
       end.
Proof.
  revert arr0. induction l as [|f l IH]; intros arr0 H; simpl in H.
  - injection H as <-. repeat split. constructor.
  - change (indexStep (Ok arr0) f)
      with (array_set_named (ot_name (cif_typeCondition f)) f arr0) in H.
    unfold array_set_named in H.
    destruct (String.eqb_spec (ot_name (cif_typeCondition f)) "length")
      as [E|N].
    { rewrite indexStep_fold_Throw in H. discriminate. }
    destruct (String.eqb_spec (ot_name (cif_typeCondition f)) "__proto__")
      as [P|P].
    + apply IH in H. simpl in H. destruct H as (He & Hl & Hp & Hq & Hr).
      split; [assumption | split; [now constructor |]].
      split; [|split].
      * intros k Hk. rewrite (Hp k Hk), lastNamed_cons.
        destruct (lastNamed k l); [reflexivity|].
        rewrite P. destruct (String.eqb_spec "__proto__" k);
          [congruence | reflexivity].
      * exact Hq.
      * rewrite Hr, lastNamed_cons.
        destruct (lastNamed "__proto__" l); [reflexivity|].
        rewrite P. reflexivity.
    + apply IH in H. simpl in H. destruct H as (He & Hl & Hp & Hq & Hr).
      split; [assumption | split; [now constructor |]].
      split; [|split].
      * intros k Hk. rewrite (Hp k Hk), lastNamed_cons.
        destruct (lastNamed k l); [reflexivity|].
        rewrite obj_get_set.
        rewrite (String.eqb_sym k (ot_name (cif_typeCondition f))).
        now destruct (String.eqb (ot_name (cif_typeCondition f)) k).
      * rewrite Hq, obj_get_set.
        destruct (String.eqb_spec "__proto__"
                    (ot_name (cif_typeCondition f))); [congruence|reflexivity].
      * rewrite Hr, lastNamed_cons.
        destruct (lastNamed "__proto__" l); [reflexivity|].
        destruct (String.eqb_spec (ot_name (cif_typeCondition f))
                    "__proto__"); [congruence | reflexivity].
Qed.

Lemma indexByTypeName_Ok (l : list CompiledInlineFragment)
    (arr : JSArray CompiledInlineFragment) :
  indexByTypeName l = Ok arr ->
  elems arr = l
  /\ (forall k, k <> "__proto__"%string ->
                obj_get k (props arr) = lastNamed k l)
  /\ obj_get "__proto__" (props arr) = None
  /\ proto arr = lastNamed "__proto__" l.
Proof.
  intro H. apply indexStep_fold_Ok in H. simpl in H.
  destruct H as (He & _ & Hp & Hq & Hr). split; [assumption|].
  split; [|split].
  - intros k Hk. rewrite (Hp k Hk). now destruct (lastNamed k l).
  - exact Hq.
  - rewrite Hr. now destruct (lastNamed "__proto__" l).
Qed.

Lemma indexByTypeName_total (l : list CompiledInlineFragment) :
  Forall (fun f => ot_name (cif_typeCondition f) <> "length"%string) l ->
  exists arr, indexByTypeName l = Ok arr.
Proof.
  unfold indexByTypeName. generalize (mkJSArray l [] None).
  induction l as [|f l IH]; intros arr0 H; simpl.
  - now exists arr0.
  - inversion H as [|? ? N Hl]; subst.
    change (indexStep (Ok arr0) f)
      with (array_set_named (ot_name (cif_typeCondition f)) f arr0).
    unfold array_set_named.
    apply String.eqb_neq in N. rewrite N.
    destruct (String.eqb (ot_name (cif_typeCondition f)) "__proto__");
      now apply IH.
Qed.

(* ================================================================== *)
(** * The lowerers: unfolding, inversion, and the role of the fuel *)

Section LoweringFacts.

Variable Schema : Type.
Variable mergeInFragmentSpreads :
  NewCompilationContext Schema -> SelectionSet -> SelectionSet.
Variable newTypeCase : SelectionSet -> TypeCase.

Abbreviation lowerSet :=
  (transformSelectionSetToLegacyIR Schema mergeInFragmentSpreads newTypeCase).
Abbreviation lowerFields :=
  (transformFieldsToLegacyIR Schema mergeInFragmentSpreads newTypeCase).
Abbreviation partition :=
  (typeCaseOf Schema mergeInFragmentSpreads newTypeCase).

Lemma transformSelectionSetToLegacyIR_unfold fuel context selectionSet :
  lowerSet (S fuel) context selectionSet
  = lowerSelectionSetWith Schema (lowerFields fuel context) context
      selectionSet (partition context selectionSet).
Proof. reflexivity. Qed.

Lemma transformFieldsToLegacyIR_unfold fuel context fields :
  lowerFields (S fuel) context fields
  = mapM (lowerFieldWith (lowerSet fuel context)) fields.
Proof. reflexivity. Qed.

Lemma expand_mapM_inv (lf : list NewField -> Result (list Field))
    context selectionSet kept ys :
  mapM (fun record =>
          fields <- lf (record_fields record) ;;
          Ok (expandRecord Schema context selectionSet record fields))
       kept = Ok ys ->
  exists lowered,
    Forall2 (fun record fields => lf (record_fields record) = Ok fields)
            kept lowered
    /\ List.concat ys = expandAll Schema context selectionSet kept lowered.
Proof.
  unfold expandAll.
  revert ys. induction kept as [|record kept IH]; intros ys H; simpl in H.
  - injection H as <-. exists []. split; [constructor | reflexivity].
  - apply bind_Ok_inv in H. destruct H as (y & Hy & H).
    apply bind_Ok_inv in H. destruct H as (ys' & Hys & H).
    injection H as <-.
    apply bind_Ok_inv in Hy. destruct Hy as (fields & Hf & Hy).
    injection Hy as <-.
    destruct (IH _ Hys) as (lowered & HF & E).
    exists (fields :: lowered). split; [now constructor|].
    simpl. now rewrite E.
Qed.

(** What a successful call of the selection-set lowerer did. *)
Lemma lowerSelectionSetWith_Ok_inv
    (lf : list NewField -> Result (list Field)) context selectionSet
    typeCase r :
  lowerSelectionSetWith Schema lf context selectionSet typeCase = Ok r ->
  exists lowered,
    lf (record_fields (tc_default typeCase)) = Ok (ls_fields r)
    /\ Forall2 (fun record fields => lf (record_fields record) = Ok fields)
               (filter (keepRecord selectionSet) (tc_records typeCase))
               lowered
    /\ indexByTypeName
         (expandAll Schema context selectionSet
            (filter (keepRecord selectionSet) (tc_records typeCase)) lowered)
       = Ok (ls_inlineFragments r)
    /\ ls_fragmentSpreads r
       = map fragmentName (collectFragmentSpreads context selectionSet None).
Proof.
  unfold lowerSelectionSetWith, flatMapM. intro H.
  apply bind_Ok_inv in H. destruct H as (fields & Hf & H).
  apply bind_Ok_inv in H. destruct H as (frags & Hm & H).
  apply bind_Ok_inv in Hm. destruct Hm as (ys & Hys & Hm).
  injection Hm as <-.
  apply bind_Ok_inv in H. destruct H as (arr & Harr & H).
  injection H as <-. simpl.
  destruct (expand_mapM_inv _ _ _ _ _ Hys) as (lowered & HF & E).
  exists lowered. rewrite <- E. auto.
Qed.

Lemma transformSelectionSetToLegacyIR_Ok_inv fuel context selectionSet r :
  lowerSet fuel context selectionSet = Ok r ->
  exists fuel' lowered,
    fuel = S fuel'
    /\ lowerFields fuel' context
         (record_fields (tc_default (partition context selectionSet)))
       = Ok (ls_fields r)
    /\ Forall2 (fun record fields =>
                  lowerFields fuel' context (record_fields record) = Ok fields)
               (filter (keepRecord selectionSet)
                       (tc_records (partition context selectionSet)))
               lowered
    /\ indexByTypeName
         (expandAll Schema context selectionSet
            (filter (keepRecord selectionSet)
                    (tc_records (partition context selectionSet))) lowered)
       = Ok (ls_inlineFragments r)
    /\ ls_fragmentSpreads r
       = map fragmentName (collectFragmentSpreads context selectionSet None).
Proof.
  destruct fuel as [|fuel']; [discriminate|].
  rewrite transformSelectionSetToLegacyIR_unfold. intro H.
  apply lowerSelectionSetWith_Ok_inv in H. destruct H as (lowered & H).
  exists fuel', lowered. split; [reflexivity | exact H].
Qed.

(** More fuel never changes a result that was reached. *)
Lemma lowerSelectionSetWith_mono
    (lf lf' : list NewField -> Result (list Field)) context selectionSet
    typeCase r :
  (forall fields out, lf fields = Ok out -> lf' fields = Ok out) ->
  lowerSelectionSetWith Schema lf context selectionSet typeCase = Ok r ->
  lowerSelectionSetWith Schema lf' context selectionSet typeCase = Ok r.
Proof.
  intros M H. unfold lowerSelectionSetWith, flatMapM in *.
  apply bind_Ok_inv in H. destruct H as (fields & Hf & H).
  apply bind_Ok_inv in H. destruct H as (frags & Hm & H).
  apply bind_Ok_inv in Hm. destruct Hm as (ys & Hys & Hm).
  injection Hm as <-.
  rewrite (M _ _ Hf). simpl.
  erewrite mapM_mono; [| | exact Hys].
  - simpl. exact H.
  - intros record y Hy. apply bind_Ok_inv in Hy.
    destruct Hy as (fs & Hfs & Hy). rewrite (M _ _ Hfs). exact Hy.
Qed.

Lemma lowerFieldWith_mono
    (ls ls' : SelectionSet -> Result LegacySelectionSet) field out :
  (forall s r, ls s = Ok r -> ls' s = Ok r) ->
  lowerFieldWith ls field = Ok out -> lowerFieldWith ls' field = Ok out.
Proof.
  intros M H. unfold lowerFieldWith in *.
  destruct (nf_selectionSet field) as [sub|]; [|exact H].
  apply bind_Ok_inv in H. destruct H as (nested & Hn & H).
  apply bind_Ok_inv in Hn. destruct Hn as (r & Hr & Hn).
  injection Hn as <-.
  rewrite (M _ _ Hr). simpl. exact H.
Qed.

Lemma transform_fuel_succ fuel :
  (forall context selectionSet r,
      lowerSet fuel context selectionSet = Ok r ->
      lowerSet (S fuel) context selectionSet = Ok r)
  /\ (forall context fields out,
        lowerFields fuel context fields = Ok out ->
        lowerFields (S fuel) context fields = Ok out).
Proof.
  induction fuel as [|fuel [IHs IHf]].
  - split; intros; discriminate.
  - split.
    + intros context selectionSet r H.
      rewrite transformSelectionSetToLegacyIR_unfold in *.
      eapply lowerSelectionSetWith_mono; [|exact H].
      intros fields out. apply IHf.
    + intros context fields out H.
      rewrite transformFieldsToLegacyIR_unfold in *.
      eapply mapM_mono; [|exact H].
      intros field y. apply lowerFieldWith_mono. intros s r. apply IHs.
Qed.

Lemma transformSelectionSetToLegacyIR_fuel_le fuel fuel' context
    selectionSet r :
  fuel <= fuel' ->
  lowerSet fuel context selectionSet = Ok r ->
  lowerSet fuel' context selectionSet = Ok r.
Proof.
  induction 1 as [|m Hle IH]; intro H; [exact H|].
  apply transform_fuel_succ. now apply IH.
Qed.

End LoweringFacts.

Lemma find_rev_last {A : Type} (p : A -> bool) (l : list A) :
  (exists f, In f l /\ p f = true) ->
  exists g l1 l2,
    l = l1 ++ g :: l2
    /\ p g = true
    /\ (forall h, In h l2 -> p h = false)
    /\ find p (rev l) = Some g.
Proof.
  induction l as [|x l IH] using rev_ind; intros (f & Hin & Hp).
  - destruct Hin.
  - rewrite rev_app_distr. simpl. destruct (p x) eqn:Px.
    + exists x, l, []. repeat split; auto. intros h [].
    + apply in_app_or in Hin. destruct Hin as [Hin|[->|[]]]; [|congruence].
      destruct IH as (g & l1 & l2 & -> & Pg & Hl2 & Hfind); [eauto|].
      exists g, l1, (l2 ++ [x]). repeat split; auto.
      * now rewrite <- app_assoc.
      * intros h Hh. apply in_app_or in Hh.
        destruct Hh as [Hh|[<-|[]]]; auto.
Qed.

Lemma keepRecord_true (selectionSet : SelectionSet) (record : TypeCaseRecord) :
  keepRecord selectionSet record = true
  <-> ~ incl (ss_possibleTypes selectionSet) (record_possibleTypes record)
      /\ 0 < record_fieldMap_size record.
Proof.
  unfold keepRecord. rewrite andb_true_iff, negb_true_iff.
  rewrite every_includes_not_incl, Nat.ltb_lt. reflexivity.
Qed.

Lemma expandRecord_length {Schema : Type}
    (context : NewCompilationContext Schema) selectionSet record fields :
  List.length (expandRecord Schema context selectionSet record fields)
  = List.length (record_possibleTypes record).
Proof. unfold expandRecord. apply length_map. Qed.

(** The kept records' inline fragments, seen as one contribution per extra
    record of the partition, the skipped records contributing nothing. *)
Lemma expandAll_contributions {Schema : Type}
    (context : NewCompilationContext Schema) selectionSet records lowered :
  List.length lowered
  = List.length (filter (keepRecord selectionSet) records) ->
  exists contributions,
    expandAll Schema context selectionSet
      (filter (keepRecord selectionSet) records) lowered
    = List.concat contributions
    /\ Forall2 (fun record c =>
                  if keepRecord selectionSet record
                  then exists fields,
                         c = expandRecord Schema context selectionSet
                               record fields
                  else c = [])
               records contributions.
Proof.
  unfold expandAll. revert lowered.
  induction records as [|record records IH]; intros lowered Hlen; simpl in *.
  - exists []. split; [reflexivity | constructor].
  - destruct (keepRecord selectionSet record) eqn:K.
    + destruct lowered as [|fields lowered]; [discriminate|].
      simpl in Hlen. injection Hlen as Hlen.
      destruct (IH _ Hlen) as (cs & E & HF).
      exists (expandRecord Schema context selectionSet record fields :: cs).
      split; [simpl; now rewrite E|].
      constructor; [|assumption]. rewrite K. now exists fields.
    + destruct (IH _ Hlen) as (cs & E & HF).
      exists ([] :: cs). split; [exact E|].
      constructor; [|assumption]. now rewrite K.
Qed.

Lemma Forall2_length_eq {A B : Type} (R : A -> B -> Prop) l l' :
  Forall2 R l l' -> List.length l' = List.length l.
Proof. induction 1; simpl; congruence. Qed.

Lemma typeCondition_skipped {Schema : Type}
    (context : NewCompilationContext Schema) pts pre ty sub post arg :
  ~ incl (target_of (mkSelectionSet pts []) arg) (ss_possibleTypes sub) ->
  collectFragmentSpreads context
    (mkSelectionSet pts (pre ++ STypeCondition ty sub :: post)) arg
  = collectFragmentSpreads context (mkSelectionSet pts (pre ++ post)) arg.
Proof.
  intro N. rewrite !collectFragmentSpreads_app, collectFragmentSpreads_cons.
  simpl contribution. apply every_includes_not_incl in N. rewrite N.
  reflexivity.
Qed.

Lemma typeCondition_descended {Schema : Type}
    (context : NewCompilationContext Schema) pts pre ty sub post arg x :
  incl (target_of (mkSelectionSet pts []) arg) (ss_possibleTypes sub) ->
  In x (collectFragmentSpreads context sub
          (Some (target_of (mkSelectionSet pts []) arg))) ->
  In x (collectFragmentSpreads context
          (mkSelectionSet pts (pre ++ STypeCondition ty sub :: post)) arg).
Proof.
  intros Hsup Hx.
  rewrite collectFragmentSpreads_app, collectFragmentSpreads_cons.
  simpl contribution. apply every_includes_incl in Hsup. rewrite Hsup.
  apply in_or_app. right. apply in_or_app. now left.
Qed.

Lemma direct_spread_collected {Schema : Type}
    (context : NewCompilationContext Schema) (sub : SelectionSet)
    (fs : FragmentSpread) (arg : option (list GraphQLObjectType)) :
  In (SFragmentSpread fs) (ss_selections sub) ->
  In fs (collectFragmentSpreads context sub arg).
Proof.
  intro H. rewrite collectFragmentSpreads_flat_map.
  apply in_flat_map. exists (SFragmentSpread fs). split; [assumption|].
  simpl. now left.
Qed.

Lemma Forall2_In_l {A B : Type} (R : A -> B -> Prop) l l' x :
  Forall2 R l l' -> In x l -> exists y, In (x, y) (combine l l') /\ R x y.
Proof.
  induction 1 as [|a b l l' Hab HF IH]; intro Hin; [destruct Hin|].
  destruct Hin as [->|Hin].
  - exists b. split; [now left | exact Hab].
  - destruct (IH Hin) as (y & Hy & Hr). exists y. split; [now right | exact Hr].
Qed.

Lemma collect_default_target {Schema : Type}
    (context : NewCompilationContext Schema) (selectionSet : SelectionSet) :
  collectFragmentSpreads context selectionSet None
  = collectFragmentSpreads context selectionSet
      (Some (ss_possibleTypes selectionSet)).
Proof. now rewrite !collectFragmentSpreads_flat_map. Qed.

Lemma expandAll_In {Schema : Type} (context : NewCompilationContext Schema)
    selectionSet kept lowered f :
  In f (expandAll Schema context selectionSet kept lowered) <->
  exists record fields t,
    In (record, fields) (combine kept lowered)
    /\ In t (record_possibleTypes record)
    /\ f = mkCompiledInlineFragment t [t] fields
             (map fragmentName
                  (collectFragmentSpreads context selectionSet
                     (Some (record_possibleTypes record)))).
Proof.
  unfold expandAll. rewrite in_concat. split.
  - intros (c & Hc & Hf). apply in_map_iff in Hc.
    destruct Hc as ([record fields] & <- & Hp).
    unfold expandRecord in Hf. simpl in Hf. apply in_map_iff in Hf.
    destruct Hf as (t & <- & Ht). exists record, fields, t. auto.
  - intros (record & fields & t & Hp & Ht & ->).
    exists (expandRecord Schema context selectionSet record fields).
    split.
    + apply in_map_iff. exists (record, fields). split; [reflexivity|exact Hp].
    + unfold expandRecord. apply in_map_iff. exists t. split; [reflexivity|exact Ht].
Qed.

(* ================================================================== *)
(** * When the lowering returns *)

Section Returns.

Variable Schema : Type.
Variable mergeInFragmentSpreads :
  NewCompilationContext Schema -> SelectionSet -> SelectionSet.
Variable newTypeCase : SelectionSet -> TypeCase.
Variable context : NewCompilationContext Schema.

Abbreviation lowerSet :=
  (transformSelectionSetToLegacyIR Schema mergeInFragmentSpreads newTypeCase).
Abbreviation lowerFields :=
  (transformFieldsToLegacyIR Schema mergeInFragmentSpreads newTypeCase).
Abbreviation partition :=
  (typeCaseOf Schema mergeInFragmentSpreads newTypeCase).

Variable rank : SelectionSet -> nat.
Hypothesis rank_nested :
  nestingDecreases Schema mergeInFragmentSpreads newTypeCase context rank.
Hypothesis no_length_type :
  noTypeNamedLength Schema mergeInFragmentSpreads newTypeCase context.

Lemma expandAll_typeConditions selectionSet kept lowered f :
  In f (expandAll Schema context selectionSet kept lowered) ->
  exists record,
    In record kept /\ In (cif_typeCondition f) (record_possibleTypes record).
Proof.
  unfold expandAll. intro H. apply in_concat in H.
  destruct H as (c & Hc & Hf). apply in_map_iff in Hc.
  destruct Hc as ([record fields] & <- & Hp). apply in_combine_l in Hp.
  exists record. split; [exact Hp|].
  unfold expandRecord in Hf. simpl in Hf. apply in_map_iff in Hf.
  destruct Hf as (t & <- & Ht). exact Ht.
Qed.

Lemma lowerSelectionSetWith_returns
    (lf : list NewField -> Result (list Field)) selectionSet :
  (forall record,
      In record (tc_default (partition context selectionSet)
                 :: tc_records (partition context selectionSet)) ->
      exists out, lf (record_fields record) = Ok out) ->
  exists r,
    lowerSelectionSetWith Schema lf context selectionSet
      (partition context selectionSet) = Ok r.
Proof.
  intro Hlf. unfold lowerSelectionSetWith, flatMapM.
  destruct (Hlf _ (or_introl eq_refl)) as (fields & ->). simpl.
  destruct (mapM_total
              (fun record =>
                 fields <- lf (record_fields record) ;;
                 Ok (expandRecord Schema context selectionSet record fields))
              (filter (keepRecord selectionSet)
                      (tc_records (partition context selectionSet))))
    as (ys & Hys).
  { intros record Hin. apply filter_In in Hin. destruct Hin as (Hin & _).
    destruct (Hlf record (or_intror Hin)) as (out & ->). simpl. eauto. }
  rewrite Hys. simpl.
  destruct (expand_mapM_inv _ _ _ _ _ _ Hys) as (lowered & _ & E).
  destruct (indexByTypeName_total (List.concat ys)) as (arr & ->).
  - rewrite E. apply Forall_forall. intros f Hf.
    apply expandAll_typeConditions in Hf.
    destruct Hf as (record & Hin & Ht).
    apply filter_In in Hin. destruct Hin as (Hin & _).
    exact (no_length_type _ _ _ Hin Ht).
  - simpl. eauto.
Qed.

(** A stack budget of twice the nesting depth is enough. *)
Lemma transformSelectionSetToLegacyIR_returns_below :
  forall n selectionSet,
    rank selectionSet < n ->
    exists r, lowerSet (2 * n) context selectionSet = Ok r.
Proof.
  induction n as [|n IH]; intros selectionSet Hr; [inversion Hr|].
  replace (2 * S n) with (S (S (2 * n))) by lia.
  rewrite transformSelectionSetToLegacyIR_unfold.
  apply lowerSelectionSetWith_returns. intros record Hrec.
  rewrite transformFieldsToLegacyIR_unfold.
  apply mapM_total. intros field Hfield. unfold lowerFieldWith.
  destruct (nf_selectionSet field) as [sub|] eqn:Hsub; [|simpl; eauto].
  destruct (IH sub) as (r & ->); [|simpl; eauto].
  pose proof (rank_nested _ _ _ _ Hrec Hfield Hsub). lia.
Qed.

Lemma transformSelectionSetToLegacyIR_returns selectionSet :
  exists r, lowerSet (2 * S (rank selectionSet)) context selectionSet = Ok r.
Proof.
  apply transformSelectionSetToLegacyIR_returns_below. apply Nat.lt_succ_diag_r.
Qed.

End Returns.


(* ================================================================== *)
(** * Places inside a selection set *)

Lemma plug_possibleTypes (place : Place) (filling filling' : list Selection) :
  ss_possibleTypes (plug place filling) = ss_possibleTypes (plug place filling').
Proof. destruct place; reflexivity. Qed.

(** A type condition that does not cover the target adds nothing to what
    the classifier collects, wherever it is placed. *)
Lemma plug_typeCondition_skipped {Schema : Type}
    (context : NewCompilationContext Schema) (place : Place) (ty : string)
    (sub : SelectionSet) (target : list GraphQLObjectType) :
  ~ incl target (ss_possibleTypes sub) ->
  collectFragmentSpreads context (plug place [STypeCondition ty sub])
    (Some target)
  = collectFragmentSpreads context (plug place []) (Some target).
Proof.
  intro N. apply every_includes_not_incl in N.
  induction place as [pts pre post
                     |pts pre ty' inner IH post
                     |pts pre v inverted inner IH post];
    cbn [plug]; rewrite !collectFragmentSpreads_flat_map;
    cbn [ss_selections target_of]; rewrite !flat_map_app;
    cbn [flat_map contribution app].
  - rewrite N. reflexivity.
  - rewrite (plug_possibleTypes inner [STypeCondition ty sub] []), IH.
    reflexivity.
  - rewrite IH. reflexivity.
Qed.

(** What the selections put at a place add for a target is collected from
    the top when every type condition on the way covers the target. *)
Lemma plug_collected {Schema : Type}
    (context : NewCompilationContext Schema) (place : Place)
    (filling : list Selection) (target : list GraphQLObjectType)
    (x : FragmentSpread) :
  wayCovers target place ->
  In x (flat_map (contribution context target) filling) ->
  In x (collectFragmentSpreads context (plug place filling) (Some target)).
Proof.
  induction place as [pts pre post
                     |pts pre ty' inner IH post
                     |pts pre v inverted inner IH post];
    cbn [plug wayCovers]; intros Hw Hx;
    rewrite collectFragmentSpreads_flat_map;
    cbn [ss_selections target_of]; rewrite !flat_map_app.
  - apply in_or_app. right. apply in_or_app. now left.
  - destruct Hw as (Hc & Hw). apply in_or_app. right.
    cbn [flat_map contribution]. apply in_or_app. left.
    rewrite (plug_possibleTypes inner filling []).
    apply every_includes_incl in Hc. rewrite Hc. now apply IH.
  - apply in_or_app. right. cbn [flat_map contribution].
    apply in_or_app. left. now apply IH.
Qed.

(* ================================================================== *)
(** * Properties of the selection-set lowerer *)

Section LoweringClaims.

Variable Schema : Type.
Variable mergeInFragmentSpreads :
  NewCompilationContext Schema -> SelectionSet -> SelectionSet.
Variable newTypeCase : SelectionSet -> TypeCase.

Abbreviation lowerSet :=
  (transformSelectionSetToLegacyIR Schema mergeInFragmentSpreads newTypeCase).
Abbreviation lowerFields :=
  (transformFieldsToLegacyIR Schema mergeInFragmentSpreads newTypeCase).
Abbreviation partition :=
  (typeCaseOf Schema mergeInFragmentSpreads newTypeCase).
Abbreviation finiteNesting :=
  (nestingDecreases Schema mergeInFragmentSpreads newTypeCase).
Abbreviation noLengthType :=
  (noTypeNamedLength Schema mergeInFragmentSpreads newTypeCase).

(** A kept record with a possible type called [length] makes the lowering
    throw at every stack budget: one of its inline fragments is stored
    under the array's [length]. *)
Lemma kept_length_type_throws fuel context selectionSet record t :
  In record (filter (keepRecord selectionSet)
                    (tc_records (partition context selectionSet))) ->
  In t (record_possibleTypes record) ->
  ot_name t = "length"%string ->
  exists e, lowerSet fuel context selectionSet = Throw e.
Proof.
  intros Hrec Ht Hname.
  destruct (lowerSet fuel context selectionSet) as [r|e] eqn:H; [|eauto].
  exfalso.
  apply transformSelectionSetToLegacyIR_Ok_inv in H.
  destruct H as (fuel' & lowered & -> & _ & HF & Hidx & _).
  unfold indexByTypeName in Hidx. apply indexStep_fold_Ok in Hidx.
  destruct Hidx as (_ & Hall & _). rewrite Forall_forall in Hall.
  destruct (Forall2_In_l _ _ _ record HF Hrec) as (fields & Hp & _).
  refine (Hall (mkCompiledInlineFragment t [t] fields _) _ Hname).
  apply expandAll_In. exists record, fields, t. auto.
Qed.

(** X15.  The lowering of a selection set returns when nesting is finite
    and no type is called [length], a stack budget of twice the nesting
    depth being enough; and whenever it returns, its inline fragments are,
    for the kept (non-skipped) extra records in partition order, one inline
    fragment per entry of the record's possible types, in that order: the
    types of one record all carry the field list the record's fields
    lower to and the fragment-spread names the classifier finds in the
    selection set for the record's possible types, and each has the type
    as [typeCondition] and as the only member of [possibleTypes]. *)
Theorem inline_fragments_fan_out :
  forall context selectionSet,
    (forall rank,
        finiteNesting context rank ->
        noLengthType context ->
        exists r,
          lowerSet (2 * S (rank selectionSet)) context selectionSet = Ok r)
    /\ (forall fuel r,
           lowerSet fuel context selectionSet = Ok r ->
           let kept :=
             filter (keepRecord selectionSet)
                    (tc_records (partition context selectionSet)) in
           exists fuel' lowered,
             fuel = S fuel'
             /\ Forall2 (fun record fields =>
                           lowerFields fuel' context (record_fields record)
                           = Ok fields)
                        kept lowered
             /\ elems (ls_inlineFragments r)
                = List.concat
                    (map (fun p =>
                            let record := fst p in
                            let fields := snd p in
                            let fragmentSpreads :=
                              map fragmentName
                                  (collectFragmentSpreads context selectionSet
                                     (Some (record_possibleTypes record))) in
                            map (fun possibleType =>
                                   mkCompiledInlineFragment
                                     possibleType [possibleType]
                                     fields fragmentSpreads)
                                (record_possibleTypes record))
                         (combine kept lowered))).
Proof.
  intros context selectionSet. split.
  - intros rank Hrank Hlen.
    now apply transformSelectionSetToLegacyIR_returns.
  - intros fuel r H kept.
    apply transformSelectionSetToLegacyIR_Ok_inv in H.
    destruct H as (fuel' & lowered & -> & _ & HF & Hidx & _).
    exists fuel', lowered. split; [reflexivity | split; [exact HF|]].
    apply indexByTypeName_Ok in Hidx. destruct Hidx as (He & _).
    rewrite He. reflexivity.
Qed.

(** X16.  The lowering of a selection set returns when nesting is finite
    and no type is called [length]; and whenever it returns, its inline
    fragments are the concatenation, in partition order, of one
    contribution per extra record.  A record's contribution is not empty
    exactly when the record's possible types do not cover the selection
    set's, it selects at least one field, and its own list of possible
    types is not empty; a kept record contributes as many inline
    fragments as it has possible types, a skipped one none.  Hence, when
    every extra record covers the full set, there is no inline fragment
    at all, and a record with zero fields contributes none. *)
Theorem extra_record_contributions :
  forall context selectionSet,
    let records := tc_records (partition context selectionSet) in
    (forall rank,
        finiteNesting context rank ->
        noLengthType context ->
        exists r,
          lowerSet (2 * S (rank selectionSet)) context selectionSet = Ok r)
    /\ (forall fuel r,
           lowerSet fuel context selectionSet = Ok r ->
           (exists contributions : list (list CompiledInlineFragment),
               elems (ls_inlineFragments r) = List.concat contributions
               /\ Forall2
                    (fun record c =>
                       (c <> []
                        <-> ~ incl (ss_possibleTypes selectionSet)
                                   (record_possibleTypes record)
                            /\ 0 < record_fieldMap_size record
                            /\ record_possibleTypes record <> [])
                       /\ (record_fieldMap_size record = 0 -> c = [])
                       /\ List.length c
                          = if keepRecord selectionSet record
                            then List.length (record_possibleTypes record)
                            else 0)
                    records contributions)
           /\ ((forall record,
                   In record records ->
                   incl (ss_possibleTypes selectionSet)
                        (record_possibleTypes record)) ->
               elems (ls_inlineFragments r) = [])).
Proof.
  intros context selectionSet records. split.
  { intros rank Hrank Hlen.
    now apply transformSelectionSetToLegacyIR_returns. }
  intros fuel r H.
  apply transformSelectionSetToLegacyIR_Ok_inv in H.
  destruct H as (fuel' & lowered & -> & _ & HF & Hidx & _).
  apply indexByTypeName_Ok in Hidx. destruct Hidx as (He & _).
  fold records in HF, He.
  split.
  - destruct (expandAll_contributions context selectionSet records lowered
                (Forall2_length_eq _ _ _ HF)) as (cs & E & HC).
    exists cs. split; [congruence|].
    clear - HC. induction HC as [|record c records cs Hc HC IH];
      constructor; [|exact IH].
    destruct (keepRecord selectionSet record) eqn:K.
    + destruct Hc as (fields & ->).
      apply keepRecord_true in K. destruct K as (Kc & Ks).
      split; [|split].
      * unfold expandRecord.
        destruct (record_possibleTypes record) eqn:P; simpl.
        -- split; [congruence | intros (_ & _ & N); congruence].
        -- split; [intros _; repeat split; auto; congruence | congruence].
      * intro Z. rewrite Z in Ks. inversion Ks.
      * apply expandRecord_length.
    + subst c. split; [|split]; [|reflexivity|reflexivity].
      split; [congruence|].
      intros (Kc & Ks & _).
      assert (keepRecord selectionSet record = true) as K'
          by (apply keepRecord_true; auto).
      congruence.
  - intro Hall. rewrite He.
    assert (filter (keepRecord selectionSet) records = []) as ->.
    { clear - Hall. induction records as [|record records IH]; simpl;
        [reflexivity|].
      destruct (keepRecord selectionSet record) eqn:K.
      - apply keepRecord_true in K. destruct K as (Kc & _).
        exfalso. apply Kc. apply Hall. now left.
      - apply IH. intros; apply Hall; now right. }
    reflexivity.
Qed.

(** C2, as amended.  Let a selection set hold, at any place reached
    through type and boolean conditions, an inline type condition whose
    possible types are a strict subset of the selection set's, and let a
    named fragment be spread at any place inside that condition, again
    reached through type and boolean conditions.  The lowering returns
    when nesting is finite and no type is called [length], and it throws
    at every stack budget when a kept extra record has a possible type
    called [length].  Whenever it returns, the enclosing [fragmentSpreads]
    is the list the selection set would have without the condition, so
    that the name appears there only if it is also spread outside the
    condition; every inline fragment emitted for a kept extra record whose
    possible types all belong to the condition's, and to those of every
    type condition between the selection set and the spread, carries the
    name in its own [fragmentSpreads]; and the inline fragments of a kept
    record with a possible type outside the condition's carry the list
    the selection set would give that record without the condition. *)
Theorem narrowed_spread_visibility :
  forall context outer ty inner fs,
    let sub := plug inner [SFragmentSpread fs] in
    let selectionSet := plug outer [STypeCondition ty sub] in
    let kept :=
      filter (keepRecord selectionSet)
             (tc_records (partition context selectionSet)) in
    incl (ss_possibleTypes sub) (ss_possibleTypes selectionSet) ->
    ~ incl (ss_possibleTypes selectionSet) (ss_possibleTypes sub) ->
    (forall rank,
        finiteNesting context rank ->
        noLengthType context ->
        exists r,
          lowerSet (2 * S (rank selectionSet)) context selectionSet = Ok r)
    /\ (forall record t,
           In record kept ->
           In t (record_possibleTypes record) ->
           ot_name t = "length"%string ->
           forall fuel, exists e, lowerSet fuel context selectionSet = Throw e)
    /\ (forall fuel r,
           lowerSet fuel context selectionSet = Ok r ->
           ls_fragmentSpreads r
           = map fragmentName
                 (collectFragmentSpreads context (plug outer []) None)
           /\ exists lowered,
                List.length lowered = List.length kept
                /\ elems (ls_inlineFragments r)
                   = expandAll Schema context selectionSet kept lowered
                /\ forall record fields f,
                     In (record, fields) (combine kept lowered) ->
                     In f (expandRecord Schema context selectionSet
                             record fields) ->
                     (incl (record_possibleTypes record)
                           (ss_possibleTypes sub) ->
                      wayCovers (record_possibleTypes record) outer ->
                      wayCovers (record_possibleTypes record) inner ->
                      In (fragmentName fs) (cif_fragmentSpreads f))
                     /\ (~ incl (record_possibleTypes record)
                               (ss_possibleTypes sub) ->
                         cif_fragmentSpreads f
                         = map fragmentName
                             (collectFragmentSpreads context (plug outer [])
                                (Some (record_possibleTypes record))))).
Proof.
  intros context outer ty inner fs sub selectionSet kept Hsub Hstrict.
  split; [|split].
  { intros rank Hrank Hlen.
    now apply transformSelectionSetToLegacyIR_returns. }
  { intros record t Hrec Ht Hname fuel.
    exact (kept_length_type_throws fuel context selectionSet record t
             Hrec Ht Hname). }
  intros fuel r H.
  apply transformSelectionSetToLegacyIR_Ok_inv in H.
  destruct H as (fuel' & lowered & -> & _ & HF & Hidx & Hsp).
  apply indexByTypeName_Ok in Hidx. destruct Hidx as (He & _).
  split.
  - rewrite Hsp, !collect_default_target. unfold selectionSet.
    rewrite (plug_possibleTypes outer [] [STypeCondition ty sub]).
    f_equal. now apply plug_typeCondition_skipped.
  - exists lowered. split; [exact (Forall2_length_eq _ _ _ HF)|].
    split; [exact He|].
    intros record fields f _ Hf.
    unfold expandRecord in Hf. apply in_map_iff in Hf.
    destruct Hf as (t & <- & _). cbn [cif_fragmentSpreads].
    split.
    + intros Hin Hout Hinner. apply in_map. unfold selectionSet.
      apply plug_collected; [exact Hout|].
      cbn [flat_map contribution]. rewrite app_nil_r.
      apply every_includes_incl in Hin. rewrite Hin.
      apply plug_collected; [exact Hinner|].
      simpl. now left.
    + intro Hout. f_equal. unfold selectionSet.
      now apply plug_typeCondition_skipped.
Qed.

(** X17.  The lowering of a selection set returns when nesting is finite
    and no type is called [length]; and whenever it returns, the returned
    [inlineFragments] array keeps its elements, none of which has a type
    condition called [length], and for each element the last element [g]
    of the array whose type condition has the same name is recorded on
    the array: as the named property of that name, unless the name is
    [__proto__], in which case no property is stored and [g] has replaced
    the array's prototype.  The array holds no other named property, and
    its prototype is replaced in no other case. *)
Theorem inline_fragments_indexed_by_type_name :
  forall context selectionSet,
    (forall rank,
        finiteNesting context rank ->
        noLengthType context ->
        exists r,
          lowerSet (2 * S (rank selectionSet)) context selectionSet = Ok r)
    /\ (forall fuel r,
           lowerSet fuel context selectionSet = Ok r ->
           let arr := ls_inlineFragments r in
           (forall f,
               In f (elems arr) ->
               exists g before after,
                 elems arr = before ++ g :: after
                 /\ ot_name (cif_typeCondition g)
                    = ot_name (cif_typeCondition f)
                 /\ (forall h, In h after ->
                               ot_name (cif_typeCondition h)
                               <> ot_name (cif_typeCondition f))
                 /\ if String.eqb (ot_name (cif_typeCondition f)) "__proto__"
                    then obj_get "__proto__" (props arr) = None
                         /\ proto arr = Some g
                    else obj_get (ot_name (cif_typeCondition f)) (props arr)
                         = Some g)
           /\ (forall k v,
                  obj_get k (props arr) = Some v ->
                  In v (elems arr)
                  /\ ot_name (cif_typeCondition v) = k
                  /\ k <> "__proto__"%string)
           /\ (forall v,
                  proto arr = Some v ->
                  In v (elems arr)
                  /\ ot_name (cif_typeCondition v) = "__proto__"%string)
           /\ Forall (fun f => ot_name (cif_typeCondition f)
                               <> "length"%string)
                     (elems arr)).
Proof.
  intros context selectionSet. split.
  { intros rank Hrank Hlen.
    now apply transformSelectionSetToLegacyIR_returns. }
  intros fuel r H arr.
  apply transformSelectionSetToLegacyIR_Ok_inv in H.
  destruct H as (fuel' & lowered & -> & _ & _ & Hidx & _).
  pose proof (indexByTypeName_Ok _ _ Hidx) as (He & Hp & Hq & Hr).
  unfold indexByTypeName in Hidx. apply indexStep_fold_Ok in Hidx.
  destruct Hidx as (_ & Hno & _).
  fold arr in He, Hp, Hq, Hr. rewrite He.
  split; [|split; [|split]].
  - intros f Hf.
    destruct (find_rev_last
                (fun g => String.eqb (ot_name (cif_typeCondition g))
                                     (ot_name (cif_typeCondition f)))
                _ (ex_intro _ f (conj Hf (String.eqb_refl _))))
      as (g & l1 & l2 & E & Pg & Hl2 & Hfind).
    exists g, l1, l2. split; [exact E|].
    split; [now apply String.eqb_eq|].
    split; [intros h Hh; apply String.eqb_neq; now apply Hl2|].
    destruct (String.eqb_spec (ot_name (cif_typeCondition f)) "__proto__")
      as [P|P].
    + split; [exact Hq|]. rewrite Hr, <- P. exact Hfind.
    + rewrite (Hp _ P). exact Hfind.
  - intros k v Hk.
    destruct (String.eqb_spec k "__proto__") as [->|P];
      [rewrite Hq in Hk; discriminate|].
    rewrite (Hp _ P) in Hk. unfold lastNamed in Hk.
    apply find_some in Hk. destruct Hk as (Hin & Hn).
    split; [now apply in_rev|]. split; [now apply String.eqb_eq | exact P].
  - intros v Hv. rewrite Hr in Hv. unfold lastNamed in Hv.
    apply find_some in Hv. destruct Hv as (Hin & Hn).
    split; [now apply in_rev | now apply String.eqb_eq].
  - exact Hno.
Qed.

End LoweringClaims.

(** The sample selection set with the interface [Climber] lowers, with the
    plain partitioner, to one inline fragment for [Cat] from the record
    [Cat] and, from the record [Cat, Bird], one for [Cat] and one for
    [Bird] that share their fields and fragment spreads. *)
Lemma inline_fragments_fan_out_witness :
  exists r,
    transformSelectionSetToLegacyIR unit Fixture.noMerge
      Fixture.directTypeCase 2 Fixture.emptyContext Fixture.climberSelection
    = Ok r
    /\ map (fun f => (cif_typeCondition f, cif_possibleTypes f,
                      map fd_fieldName (cif_fields f)))
           (elems (ls_inlineFragments r))
       = [(Fixture.Cat, [Fixture.Cat], ["lives"%string]);
          (Fixture.Cat, [Fixture.Cat], ["climbs"%string]);
          (Fixture.Bird, [Fixture.Bird], ["climbs"%string])]
    /\ exists fuel' lowered,
         2 = S fuel'
         /\ Forall2
              (fun record fields =>
                 transformFieldsToLegacyIR unit Fixture.noMerge
                   Fixture.directTypeCase fuel' Fixture.emptyContext
                   (record_fields record)
                 = Ok fields)
              (filter (keepRecord Fixture.climberSelection)
                 (tc_records
                    (typeCaseOf unit Fixture.noMerge Fixture.directTypeCase
                       Fixture.emptyContext Fixture.climberSelection)))
              lowered
         /\ elems (ls_inlineFragments r)
            = expandAll unit Fixture.emptyContext Fixture.climberSelection
                (filter (keepRecord Fixture.climberSelection)
                   (tc_records
                      (typeCaseOf unit Fixture.noMerge Fixture.directTypeCase
                         Fixture.emptyContext Fixture.climberSelection)))
                lowered.
Proof.
  eexists. split; [reflexivity|]. split; [reflexivity|].
  exact (proj2 (inline_fragments_fan_out unit Fixture.noMerge
                  Fixture.directTypeCase Fixture.emptyContext
                  Fixture.climberSelection) 2 _ eq_refl).
Defined.

(** With one extra record that covers both possible types, the lowering
    returns no inline fragment. *)
Lemma extra_record_contributions_witness :
  exists r,
    transformSelectionSetToLegacyIR unit Fixture.noMerge
      (Fixture.fixedTypeCase
         [mkTypeCaseRecord [Fixture.Cat; Fixture.Dog] 1
                           [Fixture.scalarField "name"]])
      2 Fixture.emptyContext Fixture.petSelection
    = Ok r
    /\ elems (ls_inlineFragments r) = [].
Proof.
  eexists. split; [reflexivity|].
  refine (proj2 (proj2 (extra_record_contributions unit Fixture.noMerge
                          (Fixture.fixedTypeCase
                             [mkTypeCaseRecord [Fixture.Cat; Fixture.Dog] 1
                                               [Fixture.scalarField "name"]])
                          Fixture.emptyContext Fixture.petSelection)
                   2 _ eq_refl) _).
  intros record [<-|[]] t [<-|[<-|[]]]; simpl; auto.
Defined.

(** [...CatFields] under [@include] inside [... on Cat]: the enclosing
    level lists no spread, the inline fragment for [Cat] lists
    [CatFields]. *)
Lemma narrowed_spread_visibility_witness :
  exists r,
    transformSelectionSetToLegacyIR unit Fixture.noMerge
      Fixture.directTypeCase 2 Fixture.emptyContext
      Fixture.conditionalCatSelection
    = Ok r
    /\ ls_fragmentSpreads r = []
    /\ map (fun f => (ot_name (cif_typeCondition f), cif_fragmentSpreads f))
           (elems (ls_inlineFragments r))
       = [("Cat", ["CatFields"])]%string
    /\ forall f,
         In f (elems (ls_inlineFragments r)) ->
         In "CatFields"%string (cif_fragmentSpreads f).
Proof.
  eexists. split; [reflexivity|].
  edestruct (narrowed_spread_visibility unit Fixture.noMerge
               Fixture.directTypeCase Fixture.emptyContext
               (PlaceHere [Fixture.Dog; Fixture.Cat]
                          [SField (Fixture.scalarField "name")] [])
               "Cat"%string
               (PlaceUnderBoolean [Fixture.Cat]
                  [SField (Fixture.scalarField "lives")] "detailed" false
                  (PlaceHere [Fixture.Cat] [] []) [])
               (mkFragmentSpread "CatFields"))
    as (_ & _ & Hb).
  - intros t [<-|[]]. right. now left.
  - intro H. destruct (H Fixture.Dog (or_introl eq_refl)) as [E|[]].
    discriminate E.
  - destruct (Hb 2 _ eq_refl) as (Ha & lowered & Hlen & He & Hin).
    split; [exact Ha|]. split; [reflexivity|].
    intros f Hf.
    destruct lowered as [|fields [|? ?]]; try discriminate Hlen.
    refine (proj1 (Hin _ fields f (or_introl eq_refl) _) _ I I).
    + exact (eq_ind _ (fun l => In f l) Hf _ He).
    + apply incl_refl.
Defined.

(** C2 fails as stated: [...CatFields] is spread inside [... on Cat], whose
    possible types [Cat] are a strict subset of [Dog, Cat], and the
    enclosing [fragmentSpreads] still holds the name, because the same
    fragment is also spread at the top of the selection set. *)
Lemma narrowed_spread_name_still_visible :
  let sub :=
    mkSelectionSet [Fixture.Cat]
      [SField (Fixture.scalarField "lives"); Fixture.spread "CatFields"] in
  In (STypeCondition "Cat" sub) (ss_selections Fixture.petSelectionTwice)
  /\ In (Fixture.spread "CatFields") (ss_selections sub)
  /\ incl (ss_possibleTypes sub) (ss_possibleTypes Fixture.petSelectionTwice)
  /\ ~ incl (ss_possibleTypes Fixture.petSelectionTwice) (ss_possibleTypes sub)
  /\ exists r,
       transformSelectionSetToLegacyIR unit Fixture.noMerge
         Fixture.directTypeCase 2 Fixture.emptyContext
         Fixture.petSelectionTwice
       = Ok r
       /\ In "CatFields"%string (ls_fragmentSpreads r).
Proof.
  simpl. repeat split.
  - right. right. right. now left.
  - right. now left.
  - intros t [<-|[]]. right. now left.
  - intro H. destruct (H Fixture.Dog (or_introl eq_refl)) as [E|[]].
    discriminate E.
  - eexists. split; [reflexivity|]. now left.
Qed.

(** Two inline fragments for [Cat]: the property [Cat] is the second
    one. *)
Lemma inline_fragments_indexed_by_type_name_witness :
  exists r,
    transformSelectionSetToLegacyIR unit Fixture.noMerge
      Fixture.directTypeCase 2 Fixture.emptyContext Fixture.climberSelection
    = Ok r
    /\ map (fun f => (ot_name (cif_typeCondition f),
                      map fd_fieldName (cif_fields f)))
           (elems (ls_inlineFragments r))
       = [("Cat", ["lives"]); ("Cat", ["climbs"]); ("Bird", ["climbs"])]%string
    /\ map (fun p => (fst p, map fd_fieldName (cif_fields (snd p))))
           (props (ls_inlineFragments r))
       = [("Cat", ["climbs"]); ("Bird", ["climbs"])]%string
    /\ proto (ls_inlineFragments r) = None
    /\ forall k v,
         obj_get k (props (ls_inlineFragments r)) = Some v ->
         In v (elems (ls_inlineFragments r))
         /\ ot_name (cif_typeCondition v) = k
         /\ k <> "__proto__"%string.
Proof.
  eexists. split; [reflexivity|]. split; [reflexivity|].
  split; [reflexivity|]. split; [reflexivity|].
  exact (proj1 (proj2 (proj2 (inline_fragments_indexed_by_type_name unit
                                Fixture.noMerge Fixture.directTypeCase
                                Fixture.emptyContext
                                Fixture.climberSelection)
                         2 _ eq_refl))).
Defined.

(** C4 against the code: the record [Cat, length] of the sample selection
    set on [Dog, Cat, length] is kept by the filter and has two possible
    types, so two inline fragments are due; the lowering throws instead,
    at every stack budget, and what it throws once the budget suffices is
    the [RangeError] of the assignment to the array's [length]. *)
Theorem fan_out_fails_on_type_named_length :
  let record :=
    mkTypeCaseRecord [Fixture.Cat; Fixture.LengthType] 1
                     [Fixture.scalarField "size"] in
  let lower fuel :=
    transformSelectionSetToLegacyIR unit Fixture.noMerge
      Fixture.directTypeCase fuel Fixture.emptyContext
      Fixture.sizedSelection in
  filter (keepRecord Fixture.sizedSelection)
         (tc_records
            (typeCaseOf unit Fixture.noMerge Fixture.directTypeCase
               Fixture.emptyContext Fixture.sizedSelection))
  = [record]
  /\ List.length
       (expandRecord unit Fixture.emptyContext Fixture.sizedSelection
          record []) = 2
  /\ (forall fuel r, lower fuel <> Ok r)
  /\ (forall fuel, lower (S (S fuel)) = Throw InvalidArrayLength).
Proof.
  cbv zeta. split; [reflexivity|]. split; [reflexivity|].
  assert (forall fuel,
             transformSelectionSetToLegacyIR unit Fixture.noMerge
               Fixture.directTypeCase (S (S fuel)) Fixture.emptyContext
               Fixture.sizedSelection
             = Throw InvalidArrayLength) as H by (intro fuel; reflexivity).
  split; [|exact H].
  intros [|[|fuel]] r; [discriminate | discriminate |].
  rewrite H. discriminate.
Qed.

(** C3 against the code: the record [length] of the sample selection set
    on [Dog, length] does not cover the selection set's possible types
    and selects one field, so it is due to contribute an inline fragment;
    the lowering never returns one, whatever the stack budget: it throws,
    and what it throws once the budget suffices is the [RangeError] of
    the assignment to the array's [length]. *)
Theorem uncovered_record_lost_on_type_named_length :
  let record :=
    mkTypeCaseRecord [Fixture.LengthType] 1 [Fixture.scalarField "unit"] in
  tc_records
    (typeCaseOf unit Fixture.noMerge Fixture.directTypeCase
       Fixture.emptyContext Fixture.lengthSelection)
  = [record]
  /\ ~ incl (ss_possibleTypes Fixture.lengthSelection)
            (record_possibleTypes record)
  /\ 0 < record_fieldMap_size record
  /\ (forall fuel,
         exists e,
           transformSelectionSetToLegacyIR unit Fixture.noMerge
             Fixture.directTypeCase fuel Fixture.emptyContext
             Fixture.lengthSelection
           = Throw e)
  /\ transformSelectionSetToLegacyIR unit Fixture.noMerge
       Fixture.directTypeCase 2 Fixture.emptyContext Fixture.lengthSelection
     = Throw InvalidArrayLength.
Proof.
  cbv zeta. split; [reflexivity|]. split; [|split; [|split]].
  - intro H. destruct (H Fixture.Dog (or_introl eq_refl)) as [E|[]].
    discriminate E.
  - apply Nat.lt_0_1.
  - intros [|[|fuel]]; eexists; reflexivity.
  - reflexivity.
Qed.

(** C10 against the code: stored under the name [length], an inline
    fragment is assigned to the array's length, which throws; stored
    under the name [__proto__], it replaces the array's prototype and the
    returned array has the element but no property for it. *)
Theorem name_index_fails_on_length_and_proto :
  (forall fields spreads,
      indexByTypeName
        [mkCompiledInlineFragment Fixture.LengthType [Fixture.LengthType]
                                  fields spreads]
      = Throw InvalidArrayLength)
  /\ (forall fuel,
         transformSelectionSetToLegacyIR unit Fixture.noMerge
           Fixture.directTypeCase (S (S fuel)) Fixture.emptyContext
           Fixture.lengthSelection
         = Throw InvalidArrayLength)
  /\ exists r f,
       transformSelectionSetToLegacyIR unit Fixture.noMerge
         Fixture.directTypeCase 2 Fixture.emptyContext
         Fixture.protoSelection
       = Ok r
       /\ elems (ls_inlineFragments r) = [f]
       /\ cif_typeCondition f = Fixture.ProtoType
       /\ props (ls_inlineFragments r) = []
       /\ proto (ls_inlineFragments r) = Some f.
Proof.
  split; [intros; reflexivity|]. split; [intro; reflexivity|].
  do 2 eexists. repeat split.
Qed.

(* ================================================================== *)
(** * Loops over the entries of an object *)

Lemma obj_assign_In {A : Type} (k k' : string) (v v' : A)
    (o : JSObject A * option A) :
  In (k, v) (fst (obj_assign k' v' o)) ->
  (k = k' /\ v = v' /\ k' <> "__proto__"%string) \/ In (k, v) (fst o).
Proof.
  unfold obj_assign.
  destruct (String.eqb_spec k' "__proto__") as [P|P]; cbn [fst].
  - now right.
  - intro H. apply obj_set_In in H. destruct H as [(-> & ->)|H]; auto.
Qed.

Lemma obj_assign_proto {A : Type} (k : string) (v v' : A)
    (o : JSObject A * option A) :
  snd (obj_assign k v o) = Some v' ->
  (k = "__proto__"%string /\ v' = v) \/ snd o = Some v'.
Proof.
  unfold obj_assign.
  destruct (String.eqb_spec k "__proto__") as [P|P]; cbn [snd].
  - intro H. injection H as <-. now left.
  - now right.
Qed.

Lemma entryStep_fold_Throw {A B : Type} (body : string -> A -> Result B)
    (o : JSObject A) (e : Error) :
  fold_left (entryStep body) o (Throw e) = Throw e.
Proof. induction o; simpl; auto. Qed.

Lemma entryStep_Ok {A B : Type} (body : string -> A -> Result B)
    (acc : JSObject B * option B) (k : string) (a : A) :
  entryStep body (Ok acc) (k, a)
  = bind (body k a) (fun b => Ok (obj_assign k b acc)).
Proof. reflexivity. Qed.

Lemma entryStep_fold_Ok_inv {A B : Type} (body : string -> A -> Result B)
    (o : JSObject A) (acc out : JSObject B * option B) :
  fold_left (entryStep body) o (Ok acc) = Ok out ->
  (forall k b,
      In (k, b) (fst out) ->
      In (k, b) (fst acc) \/ exists a, In (k, a) o /\ body k a = Ok b)
  /\ (forall b,
         snd out = Some b ->
         snd acc = Some b
         \/ exists a, In ("__proto__"%string, a) o
                      /\ body "__proto__"%string a = Ok b).
Proof.
  revert acc. induction o as [|[k0 a0] o IH]; intros acc H;
    cbn [fold_left] in H.
  - injection H as <-. split; intros; now left.
  - rewrite entryStep_Ok in H.
    destruct (body k0 a0) as [b0|e] eqn:B0; simpl bind in H;
      [|rewrite entryStep_fold_Throw in H; discriminate].
    destruct (IH _ H) as (IHe & IHp). split.
    + intros k b Hin. destruct (IHe k b Hin) as [Hacc|(a & Ha & Hb)].
      * apply obj_assign_In in Hacc.
        destruct Hacc as [(-> & -> & _)|Hacc].
        -- right. exists a0. split; [now left | assumption].
        -- now left.
      * right. exists a. split; [now right | assumption].
    + intros b Hb. destruct (IHp b Hb) as [Hacc|(a & Ha & Hb')].
      * apply obj_assign_proto in Hacc.
        destruct Hacc as [(-> & ->)|Hacc].
        -- right. exists a0. split; [now left | assumption].
        -- now left.
      * right. exists a. split; [now right | assumption].
Qed.

Lemma forEntries_Ok_inv {A B : Type} (body : string -> A -> Result B)
    (o : JSObject A) (out : JSObject B * option B) :
  forEntries body o = Ok out ->
  (forall k b, In (k, b) (fst out) -> exists a, In (k, a) o /\ body k a = Ok b)
  /\ (forall b,
         snd out = Some b ->
         exists a, In ("__proto__"%string, a) o
                   /\ body "__proto__"%string a = Ok b).
Proof.
  intro H.
  destruct (entryStep_fold_Ok_inv body o ([], None) out H) as (He & Hp).
  split.
  - intros k b Hin. destruct (He k b Hin) as [[]|Hex]. exact Hex.
  - intros b Hb. destruct (Hp b Hb) as [Hn|Hex]; [discriminate Hn|exact Hex].
Qed.

Lemma entryStep_fold_mono {A B : Type} (body body' : string -> A -> Result B)
    (o : JSObject A) (acc out : JSObject B * option B) :
  (forall k a b, In (k, a) o -> body k a = Ok b -> body' k a = Ok b) ->
  fold_left (entryStep body) o (Ok acc) = Ok out ->
  fold_left (entryStep body') o (Ok acc) = Ok out.
Proof.
  revert acc. induction o as [|[k0 a0] o IH]; intros acc M H;
    cbn [fold_left] in *.
  - exact H.
  - rewrite entryStep_Ok in *.
    destruct (body k0 a0) as [b0|e] eqn:B0; simpl bind in H.
    + rewrite (M k0 a0 b0 (or_introl eq_refl) B0). simpl bind.
      apply IH; [|exact H]. intros k a b Hin. apply M. now right.
    + rewrite entryStep_fold_Throw in H. discriminate.
Qed.

Lemma forEntries_ext {A B : Type} (body body' : string -> A -> Result B)
    (o : JSObject A) :
  (forall k a, body k a = body' k a) ->
  forEntries body o = forEntries body' o.
Proof.
  intro E. unfold forEntries.
  generalize (Ok (@nil (string * B), @None B)).
  induction o as [|[k0 a0] o IH]; intro acc; cbn [fold_left]; [reflexivity|].
  assert (entryStep body acc (k0, a0) = entryStep body' acc (k0, a0)) as ->
      by (unfold entryStep; simpl; now rewrite E).
  apply IH.
Qed.

Lemma forEntries_total {A B : Type} (body : string -> A -> Result B)
    (o : JSObject A) :
  (forall k a, In (k, a) o -> exists b, body k a = Ok b) ->
  exists out, forEntries body o = Ok out.
Proof.
  unfold forEntries. generalize (@nil (string * B), @None B).
  induction o as [|[k0 a0] o IH]; intros acc H; cbn [fold_left].
  - now exists acc.
  - change (entryStep body (Ok acc) (k0, a0))
      with (bind (body k0 a0) (fun b => Ok (obj_assign k0 b acc))).
    destruct (H k0 a0 (or_introl eq_refl)) as (b0 & ->). simpl bind.
    apply IH. intros k a Hin. apply H. now right.
Qed.

(** The loop stops at the first entry whose body throws. *)
Lemma entryStep_fold_Throw_first {A B : Type} (body : string -> A -> Result B)
    (pre post : JSObject A) (k : string) (a : A) (e : Error)
    (acc : JSObject B * option B) :
  (forall k' a', In (k', a') pre -> exists b, body k' a' = Ok b) ->
  body k a = Throw e ->
  fold_left (entryStep body) (pre ++ (k, a) :: post) (Ok acc) = Throw e.
Proof.
  revert acc. induction pre as [|[k0 a0] pre IH]; intros acc Hpre Hk;
    cbn [fold_left app].
  - rewrite entryStep_Ok, Hk. simpl bind.
    apply entryStep_fold_Throw.
  - rewrite entryStep_Ok.
    destruct (Hpre k0 a0 (or_introl eq_refl)) as (b0 & B0).
    rewrite B0. simpl bind. apply IH; [|exact Hk].
    intros k' a' Hin. apply Hpre. now right.
Qed.

Lemma entryStep_fold_Throw_some {A B : Type} (body : string -> A -> Result B)
    (o : JSObject A) (k : string) (a : A) (e : Error)
    (acc : Result (JSObject B * option B)) :
  In (k, a) o ->
  body k a = Throw e ->
  exists e', fold_left (entryStep body) o acc = Throw e'.
Proof.
  revert acc. induction o as [|[k0 a0] o IH]; intros acc Hin Hk;
    cbn [fold_left].
  - destruct Hin.
  - destruct acc as [out|e0].
    + rewrite entryStep_Ok.
      destruct (body k0 a0) as [b0|e1] eqn:B0; simpl bind.
      * destruct Hin as [E|Hin]; [injection E as -> ->; congruence|].
        now apply IH.
      * exists e1. apply entryStep_fold_Throw.
    + exists e0. apply entryStep_fold_Throw.
Qed.

(* ================================================================== *)
(** * Texts and digests *)

Lemma string_append_assoc (a b c : string) :
  String.append (String.append a b) c = String.append a (String.append b c).
Proof. induction a as [|x a IH]; simpl; [reflexivity | now rewrite IH]. Qed.

Lemma sourceFollowedBy_append (a own : string) (l : list string) :
  sourceFollowedBy (String.append a own) l
  = String.append a (sourceFollowedBy own l).
Proof.
  unfold sourceFollowedBy. revert own.
  induction l as [|x l IH]; intro own; simpl; [reflexivity|].
  rewrite string_append_assoc. apply IH.
Qed.

(** [join] with a newline is the wording of the specification. *)
Lemma join_sourceFollowedBy (own : string) (sources : list string) :
  join newline (own :: sources) = sourceFollowedBy own sources.
Proof.
  revert own. induction sources as [|x l IH]; intro own.
  - reflexivity.
  - change (join newline (own :: x :: l))
      with (String.append own (String.append newline (join newline (x :: l)))).
    rewrite IH.
    change (sourceFollowedBy own (x :: l))
      with (sourceFollowedBy (String.append own (String.append newline x)) l).
    rewrite sourceFollowedBy_append.
    f_equal. symmetry. apply sourceFollowedBy_append.
Qed.

Lemma length_string_of_list_ascii (l : list ascii) :
  String.length (string_of_list_ascii l) = List.length l.
Proof. induction l as [|c l IH]; simpl; [reflexivity | now rewrite IH]. Qed.

Lemma hexdigit_lower (x : Z) : SHA256.is_lower_hex (SHA256.hexdigit x) = true.
Proof.
  unfold SHA256.hexdigit. generalize (Z.to_nat (Z.land x 15)). intro n.
  do 16 (destruct n as [|n]; [reflexivity|]). destruct n; reflexivity.
Qed.

Lemma state_hex_length (s : SHA256.State) :
  List.length (SHA256.state_hex s) = 64.
Proof. destruct s. reflexivity. Qed.

Lemma state_hex_lower (s : SHA256.State) :
  Forall (fun c => SHA256.is_lower_hex c = true) (SHA256.state_hex s).
Proof.
  destruct s. unfold SHA256.state_hex, SHA256.word_hex. simpl.
  repeat (constructor; [apply hexdigit_lower|]). constructor.
Qed.

Lemma sha256_hex_shape (text : string) :
  String.length (SHA256.hex text) = 64
  /\ Forall (fun c => SHA256.is_lower_hex c = true)
            (list_ascii_of_string (SHA256.hex text)).
Proof.
  unfold SHA256.hex. split.
  - rewrite length_string_of_list_ascii. apply state_hex_length.
  - rewrite list_ascii_of_string_of_list_ascii. apply state_hex_lower.
Qed.

(* ================================================================== *)
(** * Properties of the assembler *)

Section AssemblerClaims.

Variables Schema DocumentNode : Type.
Variable mergeInFragmentSpreads :
  NewCompilationContext Schema -> SelectionSet -> SelectionSet.
Variable newTypeCase : SelectionSet -> TypeCase.
Variable compileToIR :
  Schema -> DocumentNode -> CompilerOptions -> NewCompilationContext Schema.
Variable collectFragmentsReferenced :
  NewCompilationContext Schema -> SelectionSet -> list string.

Abbreviation compile :=
  (compileToLegacyIR Schema DocumentNode mergeInFragmentSpreads newTypeCase
     compileToIR collectFragmentsReferenced).
Abbreviation compileOp :=
  (compileOperation Schema mergeInFragmentSpreads newTypeCase
     collectFragmentsReferenced).

Lemma compileOperation_Ok_inv fuel context operationName operation cop :
  compileOp fuel context operationName operation = Ok cop ->
  exists sources,
    mapM (fragmentSource Schema context)
         (collectFragmentsReferenced context (op_selectionSet operation))
    = Ok sources
    /\ co_source cop = op_source operation
    /\ co_operationName cop = operationName
    /\ co_fragmentsReferenced cop
       = collectFragmentsReferenced context (op_selectionSet operation)
    /\ co_sourceWithFragments cop
       = Some (join newline (op_source operation :: sources))
    /\ co_operationId cop
       = Some (SHA256.hex (join newline (op_source operation :: sources))).
Proof.
  unfold compileOperation. intro H.
  apply bind_Ok_inv in H. destruct H as (sources & Hs & H).
  apply bind_Ok_inv in H. destruct H as (body & Hb & H).
  injection H as <-. exists sources. simpl. auto 10.
Qed.

Lemma compileToLegacyIR_Ok_inv fuel schema document optionsArg lc :
  compile fuel schema document optionsArg = Ok lc ->
  let context := compileToIR schema document (effectiveOptions optionsArg) in
  lc_options lc = effectiveOptions optionsArg
  /\ forEntries (compileOp fuel context) (nc_operations context)
     = Ok (lc_operations lc, lc_operations_proto lc).
Proof.
  unfold compileToLegacyIR. intro H.
  apply bind_Ok_inv in H. destruct H as ([ops opsProto] & Ho & H).
  apply bind_Ok_inv in H. destruct H as (frs & Hf & H).
  injection H as <-. simpl. auto.
Qed.

Lemma compiled_operation_origin fuel schema document optionsArg lc
    operationName cop :
  compile fuel schema document optionsArg = Ok lc ->
  In (operationName, cop) (lc_operations lc) ->
  let context := compileToIR schema document (effectiveOptions optionsArg) in
  exists operation,
    In (operationName, operation) (nc_operations context)
    /\ compileOp fuel context operationName operation = Ok cop.
Proof.
  intros H Hin context.
  apply compileToLegacyIR_Ok_inv in H. destruct H as (_ & H).
  exact (proj1 (forEntries_Ok_inv _ _ _ H) _ _ Hin).
Qed.

Lemma fragmentSources_total context (names : list string) :
  (forall n, In n names -> obj_get n (nc_fragments context) <> None) ->
  exists sources, mapM (fragmentSource Schema context) names = Ok sources.
Proof.
  intro H. apply mapM_total. intros n Hn. unfold fragmentSource.
  destruct (obj_get n (nc_fragments context)) as [fragment|] eqn:G.
  - eauto.
  - exfalso. exact (H n Hn G).
Qed.

Lemma compileToLegacyIR_returns schema document optionsArg rank bound :
  compilable Schema mergeInFragmentSpreads newTypeCase
    collectFragmentsReferenced
    (compileToIR schema document (effectiveOptions optionsArg)) rank bound ->
  exists lc, compile (2 * bound) schema document optionsArg = Ok lc.
Proof.
  intros (Hrank & Hlen & Hops & Hfrs). unfold compileToLegacyIR.
  set (context := compileToIR schema document (effectiveOptions optionsArg))
    in *.
  destruct (forEntries_total (compileOp (2 * bound) context)
              (nc_operations context)) as (ops & Eo).
  { intros k operation Hin. destruct (Hops k operation Hin) as (Hr & Hdef).
    unfold compileOperation.
    destruct (fragmentSources_total context _ Hdef) as (sources & ->).
    destruct (transformSelectionSetToLegacyIR_returns_below Schema
                mergeInFragmentSpreads newTypeCase context rank Hrank Hlen
                bound (op_selectionSet operation) Hr) as (body & ->).
    simpl. eauto. }
  destruct (forEntries_total
              (compileFragment Schema mergeInFragmentSpreads newTypeCase
                 (2 * bound) context)
              (nc_fragments context)) as (frs & Ef).
  { intros k fragment Hin. unfold compileFragment.
    destruct (transformSelectionSetToLegacyIR_returns_below Schema
                mergeInFragmentSpreads newTypeCase context rank Hrank Hlen
                bound (fr_selectionSet fragment) (Hfrs k fragment Hin))
      as (body & ->).
    simpl. eauto. }
  eexists. eapply bind_Ok_intro; [exact Eo|].
  eapply bind_Ok_intro; [exact Ef|]. reflexivity.
Qed.

(** C5.  A compilation returns when every lowering does and every
    closure's names are defined; and in the result of a compilation, every
    compiled operation carries its concatenated source text and, as
    [operationId], the SHA-256 digest of the UTF-8 bytes of that text
    written as 64 lowercase hexadecimal characters; the identifier depends
    on nothing else, so any compiled operation, of this or of another
    compilation, with the same concatenated text has the same
    identifier. *)
Theorem operationId_is_sha256_of_sourceWithFragments :
  forall schema document optionsArg,
    (forall rank bound,
        compilable Schema mergeInFragmentSpreads newTypeCase
          collectFragmentsReferenced
          (compileToIR schema document (effectiveOptions optionsArg))
          rank bound ->
        exists lc, compile (2 * bound) schema document optionsArg = Ok lc)
    /\ (forall fuel lc operationName cop,
           compile fuel schema document optionsArg = Ok lc ->
           In (operationName, cop) (lc_operations lc) ->
           exists text id,
             co_sourceWithFragments cop = Some text
             /\ co_operationId cop = Some id
             /\ id = string_of_list_ascii
                       (SHA256.state_hex
                          (SHA256.digest (SHA256.utf8_bytes text)))
             /\ String.length id = 64
             /\ Forall (fun c => SHA256.is_lower_hex c = true)
                       (list_ascii_of_string id)
             /\ forall fuel' schema' document' optionsArg' lc'
                       operationName' cop',
                  compile fuel' schema' document' optionsArg' = Ok lc' ->
                  In (operationName', cop') (lc_operations lc') ->
                  co_sourceWithFragments cop' = Some text ->
                  co_operationId cop' = Some id).
Proof.
  intros schema document optionsArg. split.
  { intros rank bound. apply compileToLegacyIR_returns. }
  intros fuel lc operationName cop H Hin.
  destruct (compiled_operation_origin _ _ _ _ _ _ _ H Hin)
    as (operation & _ & Hc).
  apply compileOperation_Ok_inv in Hc.
  destruct Hc as (sources & _ & _ & _ & _ & Hswf & Hid).
  exists (join newline (op_source operation :: sources)),
         (SHA256.hex (join newline (op_source operation :: sources))).
  split; [exact Hswf|]. split; [exact Hid|]. split; [reflexivity|].
  split; [apply sha256_hex_shape|]. split; [apply sha256_hex_shape|].
  intros fuel' schema' document' optionsArg' lc' operationName' cop'
         H' Hin' Hsame.
  destruct (compiled_operation_origin _ _ _ _ _ _ _ H' Hin')
    as (operation' & _ & Hc').
  apply compileOperation_Ok_inv in Hc'.
  destruct Hc' as (sources' & _ & _ & _ & _ & Hswf' & Hid').
  congruence.
Qed.

(** C6.  A compilation returns when every lowering does and every
    closure's names are defined; and in the result of a compilation, every
    compiled operation comes from an upstream operation of the same name,
    its [fragmentsReferenced] is the closure the collector returned for
    that operation's selection set, every name of the closure has a
    fragment definition, and [sourceWithFragments] is the operation's own
    source followed, in the closure's order, by the source of each of
    these fragments, each preceded by one newline. *)
Theorem sourceWithFragments_is_source_then_fragments :
  forall schema document optionsArg,
    (forall rank bound,
        compilable Schema mergeInFragmentSpreads newTypeCase
          collectFragmentsReferenced
          (compileToIR schema document (effectiveOptions optionsArg))
          rank bound ->
        exists lc, compile (2 * bound) schema document optionsArg = Ok lc)
    /\ (forall fuel lc operationName cop,
           compile fuel schema document optionsArg = Ok lc ->
           In (operationName, cop) (lc_operations lc) ->
           let context :=
             compileToIR schema document (effectiveOptions optionsArg) in
           exists operation sources,
             In (operationName, operation) (nc_operations context)
             /\ co_source cop = op_source operation
             /\ co_fragmentsReferenced cop
                = collectFragmentsReferenced context
                    (op_selectionSet operation)
             /\ Forall2
                  (fun fragmentName source =>
                     exists fragment,
                       obj_get fragmentName (nc_fragments context)
                       = Some fragment
                       /\ fr_source fragment = source)
                  (co_fragmentsReferenced cop) sources
             /\ co_sourceWithFragments cop
                = Some (sourceFollowedBy (op_source operation) sources)).
Proof.
  intros schema document optionsArg. split.
  { intros rank bound. apply compileToLegacyIR_returns. }
  intros fuel lc operationName cop H Hin context.
  destruct (compiled_operation_origin _ _ _ _ _ _ _ H Hin)
    as (operation & Hop & Hc).
  fold context in Hop, Hc.
  apply compileOperation_Ok_inv in Hc.
  destruct Hc as (sources & Hs & Hsrc & _ & Hrefs & Hswf & _).
  exists operation, sources.
  split; [exact Hop|]. split; [exact Hsrc|]. split; [exact Hrefs|].
  split.
  - rewrite Hrefs. apply mapM_Ok_Forall2 in Hs.
    clear - Hs. induction Hs as [|n src l l' Hn Hs IH]; constructor;
      [|exact IH].
    unfold fragmentSource in Hn.
    destruct (obj_get n (nc_fragments context)) as [fragment|];
      [|discriminate].
    injection Hn as <-. now exists fragment.
  - rewrite Hswf. now rewrite join_sourceFollowedBy.
Qed.

(** C7, as amended.  [compileToLegacyIR] never consults
    [generateOperationIds]: a compilation returns when every lowering does
    and every closure's names are defined, whatever the option; the option
    is only handed on in the returned context's [options], and every
    compiled operation carries an [operationId], the digest of its
    [sourceWithFragments], whether the option is enabled, disabled or
    absent. *)
Theorem operationId_attached_whatever_the_option :
  forall schema document optionsArg,
    (forall rank bound,
        compilable Schema mergeInFragmentSpreads newTypeCase
          collectFragmentsReferenced
          (compileToIR schema document (effectiveOptions optionsArg))
          rank bound ->
        exists lc, compile (2 * bound) schema document optionsArg = Ok lc)
    /\ (forall fuel lc,
           compile fuel schema document optionsArg = Ok lc ->
           generateOperationIds (lc_options lc)
           = generateOperationIds (effectiveOptions optionsArg)
           /\ forall operationName cop,
                In (operationName, cop) (lc_operations lc) ->
                exists text,
                  co_sourceWithFragments cop = Some text
                  /\ co_operationId cop = Some (SHA256.hex text)).
Proof.
  intros schema document optionsArg. split.
  { intros rank bound. apply compileToLegacyIR_returns. }
  intros fuel lc H. split.
  - apply compileToLegacyIR_Ok_inv in H. destruct H as (-> & _).
    reflexivity.
  - intros operationName cop Hin.
    destruct (compiled_operation_origin _ _ _ _ _ _ _ H Hin)
      as (operation & _ & Hc).
    apply compileOperation_Ok_inv in Hc.
    destruct Hc as (sources & _ & _ & _ & _ & Hswf & Hid).
    eexists. split; [exact Hswf | exact Hid].
Qed.

Lemma fragmentSource_missing context (names : list string) (missing : string) :
  In missing names ->
  obj_get missing (nc_fragments context) = None ->
  mapM (fragmentSource Schema context) names
  = Throw (UndefinedPropertyRead "source").
Proof.
  intros Hin Hnone. induction names as [|n names IH]; [destruct Hin|].
  simpl. unfold fragmentSource at 1.
  destruct (obj_get n (nc_fragments context)) as [fragment|] eqn:G;
    [|reflexivity].
  simpl. destruct Hin as [->|Hin]; [congruence|].
  rewrite (IH Hin). reflexivity.
Qed.

End AssemblerClaims.

Lemma operationId_is_sha256_of_sourceWithFragments_witness :
  exists lc cop,
    Fixture.compileSample Fixture.sampleFragments None = Ok lc
    /\ In ("Q"%string, cop) (lc_operations lc)
    /\ exists id,
         co_operationId cop = Some id
         /\ String.length id = 64
         /\ Forall (fun c => SHA256.is_lower_hex c = true)
                   (list_ascii_of_string id).
Proof.
  eexists. eexists. split; [reflexivity|]. split; [left; reflexivity|].
  edestruct (proj2 (operationId_is_sha256_of_sourceWithFragments unit unit
                      Fixture.noMerge Fixture.directTypeCase
                      (Fixture.upstream Fixture.sampleOperations
                                        Fixture.sampleFragments)
                      Fixture.visibleSpreads tt tt None)
               2 _ "Q"%string _ eq_refl (or_introl eq_refl))
    as (text & id & _ & Hid & _ & Hlen & Hhex & _).
  exists id. split; [exact Hid | split; [exact Hlen | exact Hhex]].
Defined.

Lemma sourceWithFragments_is_source_then_fragments_witness :
  exists lc cop,
    Fixture.compileSample Fixture.sampleFragments None = Ok lc
    /\ In ("Q"%string, cop) (lc_operations lc)
    /\ co_fragmentsReferenced cop = ["CatFields"%string]
    /\ exists operation sources,
         co_source cop = op_source operation
         /\ co_sourceWithFragments cop
            = Some (sourceFollowedBy (op_source operation) sources).
Proof.
  eexists. eexists. split; [reflexivity|]. split; [left; reflexivity|].
  split; [reflexivity|].
  edestruct (proj2 (sourceWithFragments_is_source_then_fragments unit unit
                      Fixture.noMerge Fixture.directTypeCase
                      (Fixture.upstream Fixture.sampleOperations
                                        Fixture.sampleFragments)
                      Fixture.visibleSpreads tt tt None)
               2 _ "Q"%string _ eq_refl (or_introl eq_refl))
    as (operation & sources & _ & Hsrc & _ & _ & Hswf).
  exists operation, sources. split; [exact Hsrc | exact Hswf].
Defined.

Example sample_sourceWithFragments :
  exists lc cop,
    Fixture.compileSample Fixture.sampleFragments None = Ok lc
    /\ lc_operations lc = [("Q"%string, cop)]
    /\ co_sourceWithFragments cop
       = Some (String.append "query Q { ...CatFields }"
                 (String.append newline
                    "fragment CatFields on Cat { lives }"))
    /\ co_operationId cop
       = Some
           "f226a31d56fe64306ca94681a8fc643359067686751f5e5d83f2ad55fbc44bdc"%string.
Proof.
  eexists. eexists. split; [reflexivity|]. split; [reflexivity|].
  split; [reflexivity|]. vm_compute. reflexivity.
Qed.
Example sha256_empty :
  SHA256.hex ""
  = "e3b0c44298fc1c149afbf4c8996fb92427ae41e4649b934ca495991b7852b855"%string.
Proof. vm_compute. reflexivity. Qed.

Example sha256_abc :
  SHA256.hex "abc"
  = "ba7816bf8f01cfea414140de5dae2223b00361a396177a9cb410ff61f20015ad"%string.
Proof. vm_compute. reflexivity. Qed.

Example sha256_two_blocks :
  SHA256.hex "abcdbcdecdefdefgefghfghighijhijkijkljklmklmnlmnomnopnopq"
  = "248d6a61d20638b8e5c026930c3e6039a33ce45964ff2167f6ecedd419db06c1"%string.
Proof. vm_compute. reflexivity. Qed.

Lemma operationId_attached_whatever_the_option_witness :
  exists lc,
    Fixture.compileSample Fixture.sampleFragments
      (Some (Fixture.options (Some false)))
    = Ok lc
    /\ generateOperationIds (lc_options lc) = Some false
    /\ forall operationName cop,
         In (operationName, cop) (lc_operations lc) ->
         exists text,
           co_sourceWithFragments cop = Some text
           /\ co_operationId cop = Some (SHA256.hex text).
Proof.
  eexists. split; [reflexivity|].
  exact (proj2 (operationId_attached_whatever_the_option unit unit
                  Fixture.noMerge Fixture.directTypeCase
                  (Fixture.upstream Fixture.sampleOperations
                                    Fixture.sampleFragments)
                  Fixture.visibleSpreads tt tt
                  (Some (Fixture.options (Some false)))) 2 _ eq_refl).
Defined.

(** C7 fails as stated: with [generateOperationIds] set to [false] the
    compiled operation still carries an [operationId]. *)
Lemma operationId_attached_when_option_disabled :
  let optionsArg := Some (Fixture.options (Some false)) in
  truthy (generateOperationIds (effectiveOptions optionsArg)) = false
  /\ exists lc cop,
       Fixture.compileSample Fixture.sampleFragments optionsArg = Ok lc
       /\ lc_operations lc = [("Q"%string, cop)]
       /\ co_operationId cop
          = Some
              "f226a31d56fe64306ca94681a8fc643359067686751f5e5d83f2ad55fbc44bdc"%string
       /\ co_operationId cop <> None.
Proof.
  simpl. split; [reflexivity|].
  eexists. eexists. split; [reflexivity|]. split; [reflexivity|].
  split; [vm_compute; reflexivity | discriminate].
Qed.

(* ================================================================== *)
(** * Independence from the collaborators' identity and from the fuel *)

Section Determinism.

Variables Schema DocumentNode : Type.
Variables mergeInFragmentSpreads mergeInFragmentSpreads' :
  NewCompilationContext Schema -> SelectionSet -> SelectionSet.
Variables newTypeCase newTypeCase' : SelectionSet -> TypeCase.
Variables compileToIR compileToIR' :
  Schema -> DocumentNode -> CompilerOptions -> NewCompilationContext Schema.
Variables collectFragmentsReferenced collectFragmentsReferenced' :
  NewCompilationContext Schema -> SelectionSet -> list string.

Hypothesis merge_same :
  forall context s,
    mergeInFragmentSpreads context s = mergeInFragmentSpreads' context s.
Hypothesis typeCase_same : forall s, newTypeCase s = newTypeCase' s.
Hypothesis compileToIR_same :
  forall schema document options,
    compileToIR schema document options
    = compileToIR' schema document options.
Hypothesis closure_same :
  forall context s,
    collectFragmentsReferenced context s
    = collectFragmentsReferenced' context s.

Lemma lowerSelectionSetWith_ext
    (lf lf' : list NewField -> Result (list Field)) context selectionSet
    typeCase :
  (forall fields, lf fields = lf' fields) ->
  lowerSelectionSetWith Schema lf context selectionSet typeCase
  = lowerSelectionSetWith Schema lf' context selectionSet typeCase.
Proof.
  intro E. unfold lowerSelectionSetWith, flatMapM. rewrite E.
  erewrite mapM_ext; [reflexivity|].
  intro record. now rewrite E.
Qed.

Lemma lowerFieldWith_ext
    (ls ls' : SelectionSet -> Result LegacySelectionSet) field :
  (forall s, ls s = ls' s) -> lowerFieldWith ls field = lowerFieldWith ls' field.
Proof.
  intro E. unfold lowerFieldWith.
  destruct (nf_selectionSet field); [now rewrite E | reflexivity].
Qed.

Lemma typeCaseOf_same context selectionSet :
  typeCaseOf Schema mergeInFragmentSpreads newTypeCase context selectionSet
  = typeCaseOf Schema mergeInFragmentSpreads' newTypeCase' context
      selectionSet.
Proof. unfold typeCaseOf. now rewrite merge_same, typeCase_same. Qed.

Lemma transform_same fuel :
  (forall context selectionSet,
      transformSelectionSetToLegacyIR Schema mergeInFragmentSpreads
        newTypeCase fuel context selectionSet
      = transformSelectionSetToLegacyIR Schema mergeInFragmentSpreads'
          newTypeCase' fuel context selectionSet)
  /\ (forall context fields,
        transformFieldsToLegacyIR Schema mergeInFragmentSpreads
          newTypeCase fuel context fields
        = transformFieldsToLegacyIR Schema mergeInFragmentSpreads'
            newTypeCase' fuel context fields).
Proof.
  induction fuel as [|fuel [IHs IHf]]; [split; reflexivity|].
  split.
  - intros context selectionSet.
    rewrite !transformSelectionSetToLegacyIR_unfold, typeCaseOf_same.
    apply lowerSelectionSetWith_ext. intro fields. apply IHf.
  - intros context fields.
    rewrite !transformFieldsToLegacyIR_unfold.
    apply mapM_ext. intro field. apply lowerFieldWith_ext.
    intro s. apply IHs.
Qed.

Lemma compileToLegacyIR_same fuel schema document optionsArg :
  compileToLegacyIR Schema DocumentNode mergeInFragmentSpreads newTypeCase
    compileToIR collectFragmentsReferenced fuel schema document optionsArg
  = compileToLegacyIR Schema DocumentNode mergeInFragmentSpreads'
      newTypeCase' compileToIR' collectFragmentsReferenced' fuel schema
      document optionsArg.
Proof.
  unfold compileToLegacyIR. rewrite compileToIR_same.
  erewrite forEntries_ext.
  - erewrite (forEntries_ext (compileFragment _ _ _ _ _)); [reflexivity|].
    intros k a. unfold compileFragment.
    now rewrite (proj1 (transform_same fuel)).
  - intros k a. unfold compileOperation.
    now rewrite closure_same, (proj1 (transform_same fuel)).
Qed.

Lemma compileToLegacyIR_fuel_le fuel fuel' schema document optionsArg lc :
  fuel <= fuel' ->
  compileToLegacyIR Schema DocumentNode mergeInFragmentSpreads newTypeCase
    compileToIR collectFragmentsReferenced fuel schema document optionsArg
  = Ok lc ->
  compileToLegacyIR Schema DocumentNode mergeInFragmentSpreads newTypeCase
    compileToIR collectFragmentsReferenced fuel' schema document optionsArg
  = Ok lc.
Proof.
  intros Hle H. unfold compileToLegacyIR in *.
  apply bind_Ok_inv in H. destruct H as (ops & Ho & H).
  apply bind_Ok_inv in H. destruct H as (frs & Hf & H).
  eapply bind_Ok_intro; [|eapply bind_Ok_intro; [|exact H]].
  - refine (entryStep_fold_mono _ _ _ _ _ _ Ho).
    intros k a b _ Hb. unfold compileOperation in *.
    apply bind_Ok_inv in Hb. destruct Hb as (sources & Hs & Hb).
    apply bind_Ok_inv in Hb. destruct Hb as (body & Hbody & Hb).
    rewrite Hs. simpl.
    now rewrite (transformSelectionSetToLegacyIR_fuel_le _ _ _ _ _ _ _ _
                   Hle Hbody).
  - refine (entryStep_fold_mono _ _ _ _ _ _ Hf).
    intros k a b _ Hb. unfold compileFragment in *.
    apply bind_Ok_inv in Hb. destruct Hb as (body & Hbody & Hb).
    now rewrite (transformSelectionSetToLegacyIR_fuel_le _ _ _ _ _ _ _ _
                   Hle Hbody).
Qed.

End Determinism.

(** A partitioner that answers with one record of scalar fields meets both
    conditions, with the constant rank [0]. *)
Example fixedTypeCase_returns :
  exists r,
    transformSelectionSetToLegacyIR unit Fixture.noMerge
      (Fixture.fixedTypeCase
         [mkTypeCaseRecord [Fixture.Cat] 1 [Fixture.scalarField "lives"]])
      2 Fixture.emptyContext Fixture.petSelection
    = Ok r.
Proof.
  apply (transformSelectionSetToLegacyIR_returns unit Fixture.noMerge
           (Fixture.fixedTypeCase
              [mkTypeCaseRecord [Fixture.Cat] 1 [Fixture.scalarField "lives"]])
           Fixture.emptyContext (fun _ => 0)).
  - intros selectionSet record field sub [<-|[<-|[]]] Hf; simpl in Hf.
    + destruct Hf.
    + destruct Hf as [<-|[]]. discriminate.
  - intros selectionSet record t [<-|[]] [<-|[]]. discriminate.
Qed.

(** An inline fragment on an object type called [length] makes the name
    index assign to the array's length, and the lowering throws. *)
Example type_named_length_throws :
  transformSelectionSetToLegacyIR unit Fixture.noMerge
    (Fixture.fixedTypeCase
       [mkTypeCaseRecord [mkObjectType "length"] 1
                         [Fixture.scalarField "x"]])
    2 Fixture.emptyContext
    (mkSelectionSet [Fixture.Dog; mkObjectType "length"] [])
  = Throw InvalidArrayLength.
Proof. reflexivity. Qed.

(** Without fuel the lowering stops at once. *)
Example no_fuel_no_result :
  transformSelectionSetToLegacyIR unit Fixture.noMerge Fixture.directTypeCase
    0 Fixture.emptyContext Fixture.petSelection
  = Throw StackExhausted.
Proof. reflexivity. Qed.

(* ================================================================== *)
(** * Further properties of the classifier *)

Lemma conditionDepth_nested pts sels selection sub :
  In selection sels ->
  (exists ty, selection = STypeCondition ty sub)
  \/ (exists v inverted, selection = SBooleanCondition v inverted sub) ->
  conditionDepth sub < conditionDepth (mkSelectionSet pts sels).
Proof.
  intros Hin Hsel. simpl. apply Nat.lt_succ_r.
  pose proof (proj1 (list_max_le
                       (map (fun selection =>
                               match selection with
                               | STypeCondition _ sub => conditionDepth sub
                               | SBooleanCondition _ _ sub => conditionDepth sub
                               | _ => 0
                               end) sels) _) (Nat.le_refl _)) as H.
  rewrite Forall_forall in H. apply H.
  apply in_map_iff. exists selection. split; [|exact Hin].
  destruct Hsel as [(ty & ->)|(v & inverted & ->)]; reflexivity.
Qed.

(** Induction on the nesting depth of conditions. *)
Lemma selectionSet_depth_ind (P : SelectionSet -> Prop) :
  (forall selectionSet,
      (forall sub,
          conditionDepth sub < conditionDepth selectionSet -> P sub) ->
      P selectionSet) ->
  forall selectionSet, P selectionSet.
Proof.
  intros step selectionSet.
  assert (forall n s, conditionDepth s < n -> P s) as H.
  { induction n as [|n IH]; intros s Hs; [inversion Hs|].
    apply step. intros sub Hsub. apply IH. lia. }
  exact (H _ _ (Nat.lt_succ_diag_r _)).
Qed.

Lemma flat_map_ext_In {A B : Type} (f g : A -> list B) (l : list A) :
  (forall x, In x l -> f x = g x) -> flat_map f l = flat_map g l.
Proof.
  induction l as [|x l IH]; intro H; simpl; [reflexivity|].
  rewrite (H x (or_introl eq_refl)), IH; [reflexivity|].
  intros y Hy. apply H. now right.
Qed.

Lemma flat_map_flat_map {A B C : Type} (g : B -> list C) (h : A -> list B)
    (l : list A) :
  flat_map g (flat_map h l) = flat_map (fun x => flat_map g (h x)) l.
Proof.
  induction l as [|x l IH]; simpl; [reflexivity|].
  now rewrite flat_map_app, IH.
Qed.

Lemma withoutFields_possibleTypes (selectionSet : SelectionSet) :
  ss_possibleTypes (withoutFields selectionSet)
  = ss_possibleTypes selectionSet.
Proof. destruct selectionSet; reflexivity. Qed.

Lemma collect_without_fields {Schema Schema' : Type}
    (context : NewCompilationContext Schema)
    (context' : NewCompilationContext Schema')
    (selectionSet : SelectionSet) :
  forall arg : option (list GraphQLObjectType),
    collectFragmentSpreads context selectionSet arg
    = collectFragmentSpreads context' (withoutFields selectionSet) arg.
Proof.
  induction selectionSet as [selectionSet IH] using selectionSet_depth_ind.
  intro arg. rewrite !collectFragmentSpreads_flat_map.
  unfold target_of. rewrite withoutFields_possibleTypes.
  destruct selectionSet as [pts sels]. simpl ss_selections.
  simpl ss_possibleTypes.
  change (ss_selections (withoutFields (mkSelectionSet pts sels)))
    with (flat_map
            (fun selection =>
               match selection with
               | SField _ => []
               | SFragmentSpread fs => [SFragmentSpread fs]
               | STypeCondition ty sub =>
                   [STypeCondition ty (withoutFields sub)]
               | SBooleanCondition v inverted sub =>
                   [SBooleanCondition v inverted (withoutFields sub)]
               end) sels).
  rewrite flat_map_flat_map. apply flat_map_ext_In.
  intros [f|fs|ty sub|v inverted sub] Hin; simpl; try reflexivity.
  - rewrite withoutFields_possibleTypes, app_nil_r.
    destruct (every _ _); [|reflexivity].
    apply IH. eapply conditionDepth_nested; [exact Hin | left; eauto].
  - rewrite app_nil_r.
    apply IH. eapply conditionDepth_nested; [exact Hin | right; eauto].
Qed.


(** X1.  The classifier reads nothing but the type conditions, boolean
    conditions and named references of the selection set: the context is
    never consulted, and field selections, with whatever they nest, are
    never looked into.  So any context, even of another schema type, and
    the selection set stripped of all its fields give the same list. *)
Theorem collectFragmentSpreads_ignores_fields_and_context :
  forall (Schema Schema' : Type) (context : NewCompilationContext Schema)
         (context' : NewCompilationContext Schema')
         (selectionSet : SelectionSet)
         (arg : option (list GraphQLObjectType)),
    collectFragmentSpreads context selectionSet arg
    = collectFragmentSpreads context' (withoutFields selectionSet) arg.
Proof.
  intros Schema Schema' context context' selectionSet.
  apply collect_without_fields.
Qed.

Lemma collect_narrower_target {Schema : Type}
    (context : NewCompilationContext Schema) (selectionSet : SelectionSet) :
  forall target target' : list GraphQLObjectType,
    incl target' target ->
    incl (collectFragmentSpreads context selectionSet (Some target))
         (collectFragmentSpreads context selectionSet (Some target')).
Proof.
  induction selectionSet as [selectionSet IH] using selectionSet_depth_ind.
  intros target target' Hincl x.
  rewrite !collectFragmentSpreads_flat_map. unfold target_of.
  rewrite !in_flat_map. intros (selection & Hin & Hx).
  exists selection. split; [exact Hin|].
  destruct selectionSet as [pts sels]. simpl ss_selections in Hin.
  destruct selection as [f|fs|ty sub|v inverted sub]; simpl in *.
  - exact Hx.
  - exact Hx.
  - destruct (every (fun t => includes (ss_possibleTypes sub) t) target)
      eqn:E; [|destruct Hx].
    apply every_includes_incl in E.
    assert (every (fun t => includes (ss_possibleTypes sub) t) target' = true)
      as -> by (apply every_includes_incl; eapply incl_tran; eauto).
    refine (IH sub _ target target' Hincl x Hx).
    apply (conditionDepth_nested pts sels _ sub Hin). left; eauto.
  - refine (IH sub _ target target' Hincl x Hx).
    apply (conditionDepth_nested pts sels _ sub Hin). right; eauto.
Qed.


(** X2.  Narrowing the target never hides a fragment spread: every spread
    collected for a target is also collected for any target whose types
    all belong to it. *)
Theorem collectFragmentSpreads_antitone :
  forall (Schema : Type) (context : NewCompilationContext Schema)
         (selectionSet : SelectionSet)
         (target target' : list GraphQLObjectType),
    incl target' target ->
    incl (collectFragmentSpreads context selectionSet (Some target))
         (collectFragmentSpreads context selectionSet (Some target')).
Proof.
  intros Schema context selectionSet target target'.
  apply collect_narrower_target.
Qed.

Lemma collectFragmentSpreads_antitone_witness :
  incl [Fixture.Cat] [Fixture.Dog; Fixture.Cat]
  /\ incl (collectFragmentSpreads Fixture.emptyContext Fixture.petSelection
             (Some [Fixture.Dog; Fixture.Cat]))
          (collectFragmentSpreads Fixture.emptyContext Fixture.petSelection
             (Some [Fixture.Cat]))
  /\ collectFragmentSpreads Fixture.emptyContext Fixture.petSelection
       (Some [Fixture.Cat])
     = [mkFragmentSpread "CatFields"].
Proof.
  assert (incl [Fixture.Cat] [Fixture.Dog; Fixture.Cat]) as H
      by (intros t [<-|[]]; right; now left).
  split; [exact H|]. split; [|reflexivity].
  exact (collectFragmentSpreads_antitone unit Fixture.emptyContext
           Fixture.petSelection _ _ H).
Defined.

(* ================================================================== *)
(** * Further properties of the lowerers *)

Lemma Forall2_map_eq {A B C : Type} (R : A -> B -> Prop) (f : A -> C)
    (g : B -> C) l l' :
  (forall a b, R a b -> g b = f a) ->
  Forall2 R l l' -> map g l' = map f l.
Proof.
  intros H HF. induction HF as [|a b l l' Hab HF IH]; simpl;
    [reflexivity | now rewrite (H _ _ Hab), IH].
Qed.

Lemma obj_set_keys {A : Type} (k : string) (v : A) (o : JSObject A) :
  obj_keys (obj_set k v o)
  = if existsb (String.eqb k) (obj_keys o)
    then obj_keys o
    else obj_keys o ++ [k].
Proof.
  unfold obj_keys. induction o as [|[k0 v0] o IH]; simpl; [reflexivity|].
  destruct (String.eqb_spec k k0) as [->|N]; simpl; [reflexivity|].
  rewrite IH. now destruct (existsb _ _).
Qed.

Lemma obj_set_keys_NoDup {A : Type} (k : string) (v : A) (o : JSObject A) :
  NoDup (obj_keys o) -> NoDup (obj_keys (obj_set k v o)).
Proof.
  intro H. rewrite obj_set_keys.
  destruct (existsb (String.eqb k) (obj_keys o)) eqn:E; [exact H|].
  apply NoDup_app; [exact H | repeat constructor; intros [] |].
  intros x Hx [->|[]].
  assert (existsb (String.eqb x) (obj_keys o) = true) as E'
      by (apply existsb_exists; exists x; split;
          [exact Hx | apply String.eqb_refl]).
  congruence.
Qed.

Lemma obj_set_length {A : Type} (k : string) (v : A) (o : JSObject A) :
  List.length (obj_set k v o) <= S (List.length o).
Proof.
  induction o as [|[k0 v0] o IH]; simpl; [lia|].
  destruct (String.eqb k k0); simpl; lia.
Qed.

Lemma indexStep_fold_keys (l : list CompiledInlineFragment)
    (arr0 arr : JSArray CompiledInlineFragment) :
  fold_left indexStep l (Ok arr0) = Ok arr ->
  NoDup (obj_keys (props arr0)) ->
  NoDup (obj_keys (props arr))
  /\ List.length (props arr) <= List.length (props arr0) + List.length l.
Proof.
  revert arr0. induction l as [|f l IH]; intros arr0 H Hnd; simpl in H.
  - injection H as <-. split; [exact Hnd | simpl; lia].
  - change (indexStep (Ok arr0) f)
      with (array_set_named (ot_name (cif_typeCondition f)) f arr0) in H.
    unfold array_set_named in H.
    destruct (String.eqb (ot_name (cif_typeCondition f)) "length");
      [rewrite indexStep_fold_Throw in H; discriminate|].
    destruct (String.eqb (ot_name (cif_typeCondition f)) "__proto__").
    + apply IH in H; [|exact Hnd].
      destruct H as (Hn & Hl). split; [exact Hn|]. simpl in *. lia.
    + apply IH in H; [|simpl; now apply obj_set_keys_NoDup].
      destruct H as (Hn & Hl). split; [exact Hn|]. simpl in *.
      pose proof (obj_set_length (ot_name (cif_typeCondition f)) f
                    (props arr0)). lia.
Qed.

Section LoweringExtras.

Variable Schema : Type.
Variable mergeInFragmentSpreads :
  NewCompilationContext Schema -> SelectionSet -> SelectionSet.
Variable newTypeCase : SelectionSet -> TypeCase.

Abbreviation lowerSet :=
  (transformSelectionSetToLegacyIR Schema mergeInFragmentSpreads newTypeCase).
Abbreviation lowerFields :=
  (transformFieldsToLegacyIR Schema mergeInFragmentSpreads newTypeCase).
Abbreviation partition :=
  (typeCaseOf Schema mergeInFragmentSpreads newTypeCase).
Abbreviation finiteNesting :=
  (nestingDecreases Schema mergeInFragmentSpreads newTypeCase).
Abbreviation noLengthType :=
  (noTypeNamedLength Schema mergeInFragmentSpreads newTypeCase).

Lemma lowerFieldWith_Ok_inv
    (ls : SelectionSet -> Result LegacySelectionSet) field f :
  lowerFieldWith ls field = Ok f ->
  fd_responseName f = string_or (nf_alias field) (nf_name field)
  /\ fd_fieldName f = nf_name field
  /\ fd_type f = nf_type field
  /\ fd_args f = nf_args field
  /\ fd_isConditional f = nf_isConditional field
  /\ fd_description f = nf_description field
  /\ fd_isDeprecated f = nf_isDeprecated field
  /\ fd_deprecationReason f = nf_deprecationReason field
  /\ match nf_selectionSet field with
     | Some sub => exists r, fd_nested f = Some r /\ ls sub = Ok r
     | None => fd_nested f = None
     end.
Proof.
  unfold lowerFieldWith. intro H.
  apply bind_Ok_inv in H. destruct H as (nested & Hn & H).
  injection H as <-. simpl. repeat split.
  destruct (nf_selectionSet field) as [sub|].
  - apply bind_Ok_inv in Hn. destruct Hn as (r & Hr & Hn).
    injection Hn as <-. eauto.
  - now injection Hn as <-.
Qed.

(** X3.  The field lowerer returns, for fields without selection sets, at
    any non-zero stack budget; and whenever it returns, it returns one
    record per input field, in order: the record copies the field's name
    (as [fieldName]), type, arguments, conditional flag, description and
    deprecation data, its [responseName] is the alias unless the alias is
    absent or empty, in which case it is the name, and it carries the
    nested [fields], [fragmentSpreads] and [inlineFragments] exactly when
    the field has a selection set, these being that selection set's
    lowering. *)
Theorem transformFieldsToLegacyIR_shape :
  forall context fields,
    ((forall field, In field fields -> nf_selectionSet field = None) ->
     forall fuel,
       lowerFields (S fuel) context fields
       = Ok (map (fun field =>
                    mkField (string_or (nf_alias field) (nf_name field))
                            (nf_name field) (nf_type field) (nf_args field)
                            (nf_isConditional field) (nf_description field)
                            (nf_isDeprecated field)
                            (nf_deprecationReason field) None)
                 fields))
    /\ (forall fuel out,
           lowerFields fuel context fields = Ok out ->
           exists fuel',
             fuel = S fuel'
             /\ Forall2
                  (fun field f =>
                     fd_responseName f
                     = string_or (nf_alias field) (nf_name field)
                     /\ fd_fieldName f = nf_name field
                     /\ fd_type f = nf_type field
                     /\ fd_args f = nf_args field
                     /\ fd_isConditional f = nf_isConditional field
                     /\ fd_description f = nf_description field
                     /\ fd_isDeprecated f = nf_isDeprecated field
                     /\ fd_deprecationReason f = nf_deprecationReason field
                     /\ match nf_selectionSet field with
                        | Some sub =>
                            exists r,
                              fd_nested f = Some r
                              /\ lowerSet fuel' context sub = Ok r
                        | None => fd_nested f = None
                        end)
                  fields out).
Proof.
  intros context fields. split.
  - intros Hleaf fuel. rewrite transformFieldsToLegacyIR_unfold.
    induction fields as [|field fields IH]; [reflexivity|].
    simpl. unfold lowerFieldWith at 1.
    rewrite (Hleaf field (or_introl eq_refl)). simpl.
    rewrite IH; [reflexivity|]. intros f Hf. apply Hleaf. now right.
  - intros fuel out H. destruct fuel as [|fuel']; [discriminate|].
    exists fuel'. split; [reflexivity|].
    rewrite transformFieldsToLegacyIR_unfold in H.
    apply mapM_Ok_Forall2 in H.
    induction H as [|field f fields out Hf HF IH]; constructor;
      [|exact IH].
    now apply lowerFieldWith_Ok_inv.
Qed.

(** X4.  Whenever the lowering of a selection set returns (and it does when
    nesting is finite and no type is called [length]), its [fields] are
    the lowered fields of the partition's default record and of no other
    record: one per default field, in order, with the same names and with
    the alias-or-name response keys. *)
Theorem lowered_fields_are_the_default_record :
  forall context selectionSet,
    (forall rank,
        finiteNesting context rank ->
        noLengthType context ->
        exists r,
          lowerSet (2 * S (rank selectionSet)) context selectionSet = Ok r)
    /\ (forall fuel r,
           lowerSet fuel context selectionSet = Ok r ->
           let defaults :=
             record_fields (tc_default (partition context selectionSet)) in
           map fd_fieldName (ls_fields r) = map nf_name defaults
           /\ map fd_responseName (ls_fields r)
              = map (fun field => string_or (nf_alias field) (nf_name field))
                    defaults
           /\ map fd_type (ls_fields r) = map nf_type defaults).
Proof.
  intros context selectionSet. split.
  { intros rank Hrank Hlen.
    now apply transformSelectionSetToLegacyIR_returns. }
  intros fuel r H defaults.
  apply transformSelectionSetToLegacyIR_Ok_inv in H.
  destruct H as (fuel' & lowered & -> & Hd & _).
  fold defaults in Hd. destruct fuel' as [|fuel'']; [discriminate|].
  rewrite transformFieldsToLegacyIR_unfold in Hd.
  apply mapM_Ok_Forall2 in Hd.
  repeat split.
  - refine (Forall2_map_eq _ _ _ _ _ _ Hd). intros a b Hab.
    now apply lowerFieldWith_Ok_inv in Hab.
  - refine (Forall2_map_eq _ _ _ _ _ _ Hd). intros a b Hab.
    now apply lowerFieldWith_Ok_inv in Hab.
  - refine (Forall2_map_eq _ _ _ _ _ _ Hd). intros a b Hab.
    now apply lowerFieldWith_Ok_inv in Hab.
Qed.

(** X5.  When every extra record's possible types are among the selection
    set's, every fragment-spread name of the enclosing level is also
    listed by every inline fragment of that level, whenever the lowering
    returns (and it does when nesting is finite and no type is called
    [length]). *)
Theorem enclosing_spreads_in_every_inline_fragment :
  forall context selectionSet,
    (forall record,
        In record (tc_records (partition context selectionSet)) ->
        incl (record_possibleTypes record) (ss_possibleTypes selectionSet)) ->
    (forall rank,
        finiteNesting context rank ->
        noLengthType context ->
        exists r,
          lowerSet (2 * S (rank selectionSet)) context selectionSet = Ok r)
    /\ (forall fuel r f,
           lowerSet fuel context selectionSet = Ok r ->
           In f (elems (ls_inlineFragments r)) ->
           incl (ls_fragmentSpreads r) (cif_fragmentSpreads f)).
Proof.
  intros context selectionSet Hsub. split.
  { intros rank Hrank Hlen.
    now apply transformSelectionSetToLegacyIR_returns. }
  intros fuel r f H Hf.
  apply transformSelectionSetToLegacyIR_Ok_inv in H.
  destruct H as (fuel' & lowered & -> & _ & _ & Hidx & Hsp).
  apply indexByTypeName_Ok in Hidx. destruct Hidx as (He & _).
  rewrite He in Hf. apply expandAll_In in Hf.
  destruct Hf as (record & fields & t & Hp & _ & ->).
  cbn [cif_fragmentSpreads]. rewrite Hsp, collect_default_target.
  apply incl_map. apply collect_narrower_target.
  apply Hsub. apply in_combine_l in Hp.
  apply filter_In in Hp. exact (proj1 Hp).
Qed.

(** X6.  A selection set without possible types never gets inline
    fragments, whatever the partition holds: whenever its lowering returns
    (and it does when nesting is finite and no type is called [length]),
    the [inlineFragments] array has no element and no named property,
    and keeps its prototype. *)
Theorem no_possible_types_no_inline_fragments :
  forall context selectionSet,
    ss_possibleTypes selectionSet = [] ->
    (forall rank,
        finiteNesting context rank ->
        noLengthType context ->
        exists r,
          lowerSet (2 * S (rank selectionSet)) context selectionSet = Ok r)
    /\ (forall fuel r,
           lowerSet fuel context selectionSet = Ok r ->
           ls_inlineFragments r = mkJSArray [] [] None).
Proof.
  intros context selectionSet Hempty. split.
  { intros rank Hrank Hlen.
    now apply transformSelectionSetToLegacyIR_returns. }
  intros fuel r H.
  apply transformSelectionSetToLegacyIR_Ok_inv in H.
  destruct H as (fuel' & lowered & -> & _ & HF & Hidx & _).
  assert (filter (keepRecord selectionSet)
                 (tc_records (partition context selectionSet)) = []) as E.
  { clear HF Hidx.
    induction (tc_records (partition context selectionSet)) as [|record l IH];
      [reflexivity|].
    simpl. unfold keepRecord at 1. rewrite Hempty. simpl. exact IH. }
  rewrite E in Hidx. unfold expandAll in Hidx. simpl in Hidx.
  now injection Hidx as <-.
Qed.

(** X7.  An extra record that is kept and has a possible type called
    [length] makes the lowering fail at every stack budget: storing the
    inline fragment under that name assigns to the array's length. *)
Theorem type_named_length_never_lowers :
  forall fuel context selectionSet record t,
    In record (tc_records (partition context selectionSet)) ->
    keepRecord selectionSet record = true ->
    In t (record_possibleTypes record) ->
    ot_name t = "length"%string ->
    exists e, lowerSet fuel context selectionSet = Throw e.
Proof.
  intros fuel context selectionSet record t Hrec Hkeep Ht Hname.
  destruct (lowerSet fuel context selectionSet) as [r|e] eqn:H; [|eauto].
  exfalso.
  apply transformSelectionSetToLegacyIR_Ok_inv in H.
  destruct H as (fuel' & lowered & -> & _ & HF & Hidx & _).
  unfold indexByTypeName in Hidx. apply indexStep_fold_Ok in Hidx.
  destruct Hidx as (_ & Hall & _). rewrite Forall_forall in Hall.
  destruct (Forall2_In_l _ _ _ record HF) as (fields & Hp & _).
  { apply filter_In. auto. }
  refine (Hall (mkCompiledInlineFragment t [t] fields _) _ Hname).
  apply expandAll_In. exists record, fields, t. auto.
Qed.

(** X8.  The name index never holds a key twice and never has more keys
    than the array has elements, whenever the lowering returns (and it
    does when nesting is finite and no type is called [length]). *)
Theorem name_index_keys_unique :
  forall context selectionSet,
    (forall rank,
        finiteNesting context rank ->
        noLengthType context ->
        exists r,
          lowerSet (2 * S (rank selectionSet)) context selectionSet = Ok r)
    /\ (forall fuel r,
           lowerSet fuel context selectionSet = Ok r ->
           NoDup (obj_keys (props (ls_inlineFragments r)))
           /\ List.length (props (ls_inlineFragments r))
              <= List.length (elems (ls_inlineFragments r))).
Proof.
  intros context selectionSet. split.
  { intros rank Hrank Hlen.
    now apply transformSelectionSetToLegacyIR_returns. }
  intros fuel r H.
  apply transformSelectionSetToLegacyIR_Ok_inv in H.
  destruct H as (fuel' & lowered & -> & _ & _ & Hidx & _).
  pose proof (indexByTypeName_Ok _ _ Hidx) as (He & _).
  unfold indexByTypeName in Hidx. apply indexStep_fold_keys in Hidx.
  - simpl in Hidx. rewrite He. exact Hidx.
  - constructor.
Qed.

End LoweringExtras.

Lemma enclosing_spreads_in_every_inline_fragment_witness :
  exists r,
    transformSelectionSetToLegacyIR unit Fixture.noMerge
      Fixture.directTypeCase 2 Fixture.emptyContext
      Fixture.petSelectionTwice
    = Ok r
    /\ ls_fragmentSpreads r = ["CatFields"%string]
    /\ map cif_fragmentSpreads (elems (ls_inlineFragments r))
       = [["CatFields"]; ["CatFields"; "CatFields"]]%string
    /\ forall f,
         In f (elems (ls_inlineFragments r)) ->
         incl (ls_fragmentSpreads r) (cif_fragmentSpreads f).
Proof.
  eexists. split; [reflexivity|]. split; [reflexivity|].
  split; [reflexivity|].
  intros f Hf.
  refine (proj2 (enclosing_spreads_in_every_inline_fragment unit
                   Fixture.noMerge Fixture.directTypeCase
                   Fixture.emptyContext Fixture.petSelectionTwice _)
            2 _ f eq_refl Hf).
  intros record [<-|[<-|[]]] t [<-|[]]; simpl; auto.
Defined.

Lemma no_possible_types_no_inline_fragments_witness :
  exists r,
    transformSelectionSetToLegacyIR unit Fixture.noMerge
      (Fixture.fixedTypeCase
         [mkTypeCaseRecord [Fixture.Cat] 1 [Fixture.scalarField "lives"]])
      2 Fixture.emptyContext
      (mkSelectionSet [] [SField (Fixture.scalarField "name")])
    = Ok r
    /\ ls_inlineFragments r = mkJSArray [] [] None.
Proof.
  eexists. split; [reflexivity|].
  exact (proj2 (no_possible_types_no_inline_fragments unit Fixture.noMerge
                  (Fixture.fixedTypeCase
                     [mkTypeCaseRecord [Fixture.Cat] 1
                                       [Fixture.scalarField "lives"]])
                  Fixture.emptyContext
                  (mkSelectionSet [] [SField (Fixture.scalarField "name")])
                  eq_refl) 2 _ eq_refl).
Defined.

Lemma type_named_length_never_lowers_witness :
  exists e,
    transformSelectionSetToLegacyIR unit Fixture.noMerge
      (Fixture.fixedTypeCase
         [mkTypeCaseRecord [mkObjectType "length"] 1
                           [Fixture.scalarField "x"]])
      5 Fixture.emptyContext
      (mkSelectionSet [Fixture.Dog; mkObjectType "length"] [])
    = Throw e.
Proof.
  exact (type_named_length_never_lowers unit Fixture.noMerge
           (Fixture.fixedTypeCase
              [mkTypeCaseRecord [mkObjectType "length"] 1
                                [Fixture.scalarField "x"]])
           5 Fixture.emptyContext
           (mkSelectionSet [Fixture.Dog; mkObjectType "length"] [])
           (mkTypeCaseRecord [mkObjectType "length"] 1
                             [Fixture.scalarField "x"])
           (mkObjectType "length")
           (or_introl eq_refl) eq_refl (or_introl eq_refl) eq_refl).
Defined.

(* ================================================================== *)
(** * Further properties of the assembler *)

Lemma obj_set_fresh {A : Type} (k : string) (v : A) (o : JSObject A) :
  ~ In k (obj_keys o) -> obj_set k v o = o ++ [(k, v)].
Proof.
  unfold obj_keys. induction o as [|[k0 v0] o IH]; intro H; simpl;
    [reflexivity|].
  destruct (String.eqb_spec k k0) as [->|N].
  - exfalso. apply H. now left.
  - rewrite IH; [reflexivity|]. intro Hin. apply H. now right.
Qed.

Lemma obj_get_absent {A : Type} (k : string) (o : JSObject A) :
  ~ In k (obj_keys o) -> obj_get k o = None.
Proof.
  unfold obj_keys. induction o as [|[k0 v0] o IH]; intro H; simpl;
    [reflexivity|].
  destruct (String.eqb_spec k k0) as [->|N].
  - exfalso. apply H. now left.
  - apply IH. intro Hin. apply H. now right.
Qed.

Lemma entryStep_fold_all_Ok {A B : Type} (body : string -> A -> Result B)
    (o : JSObject A) (acc : Result (JSObject B * option B))
    (out : JSObject B * option B) :
  fold_left (entryStep body) o acc = Ok out ->
  forall k a, In (k, a) o -> exists b, body k a = Ok b.
Proof.
  revert acc. induction o as [|[k0 a0] o IH]; intros acc H k a Hin;
    [destruct Hin|].
  cbn [fold_left] in H. destruct acc as [acc|e].
  - rewrite entryStep_Ok in H.
    destruct (body k0 a0) as [b0|e] eqn:B0; simpl bind in H.
    + destruct Hin as [E|Hin]; [injection E as <- <-; eauto|].
      exact (IH _ H k a Hin).
    + rewrite entryStep_fold_Throw in H. discriminate.
  - change (entryStep body (Throw e) (k0, a0))
      with (@Throw (JSObject B * option B) e) in H.
    rewrite entryStep_fold_Throw in H. discriminate.
Qed.

(** On an object, whose keys are distinct, the loop is a map over the
    entries other than [__proto__]: one compiled record per such entry,
    under the same key, in the same order; the record compiled for the
    key [__proto__], if there is one, has replaced the prototype. *)
Lemma entryStep_fold_NoDup {A B : Type} (body : string -> A -> Result B)
    (o : JSObject A) (acc out : JSObject B * option B) :
  fold_left (entryStep body) o (Ok acc) = Ok out ->
  NoDup (obj_keys o) ->
  (forall k, In k (obj_keys o) -> ~ In k (obj_keys (fst acc))) ->
  (exists out',
      fst out = fst acc ++ out'
      /\ Forall2 (fun entry compiled =>
                    fst compiled = fst entry
                    /\ body (fst entry) (snd entry) = Ok (snd compiled))
                 (ownEntries o) out')
  /\ match obj_get "__proto__" o with
     | Some a => exists b, body "__proto__"%string a = Ok b /\ snd out = Some b
     | None => snd out = snd acc
     end.
Proof.
  revert acc. induction o as [|[k0 a0] o IH]; intros acc H Hnd Hfresh;
    cbn [fold_left] in H.
  - injection H as <-. split; [|reflexivity].
    exists []. split; [now rewrite app_nil_r | constructor].
  - rewrite entryStep_Ok in H.
    destruct (body k0 a0) as [b0|e] eqn:B0; simpl bind in H;
      [|rewrite entryStep_fold_Throw in H; discriminate].
    unfold obj_keys in Hnd. simpl in Hnd. inversion Hnd as [|? ? Hk0 Hnd'].
    subst. unfold obj_assign in H. unfold ownEntries. cbn [filter fst].
    unfold isOwnKey at 1. cbn [obj_get].
    rewrite (String.eqb_sym "__proto__" k0).
    destruct (String.eqb_spec k0 "__proto__") as [->|P]; cbn [negb].
    + destruct (IH _ H Hnd') as ((out' & E & HF) & Hp).
      { intros k Hk. apply Hfresh. now right. }
      cbn [fst snd] in E, Hp. split; [now exists out'|].
      rewrite (obj_get_absent _ _ Hk0) in Hp. eauto.
    + rewrite obj_set_fresh in H by (apply Hfresh; now left).
      destruct (IH _ H Hnd') as ((out' & E & HF) & Hp).
      { intros k Hk Hin. cbn [fst] in Hin. unfold obj_keys in Hin.
        rewrite map_app in Hin.
        apply in_app_or in Hin. destruct Hin as [Hin|[<-|[]]].
        - apply (Hfresh k); [now right | exact Hin].
        - exact (Hk0 Hk). }
      cbn [fst snd] in E, Hp. split; [|exact Hp].
      exists ((k0, b0) :: out'). split; [now rewrite E, <- app_assoc|].
      constructor; [split; [reflexivity | exact B0] | exact HF].
Qed.

Lemma forEntries_NoDup {A B : Type} (body : string -> A -> Result B)
    (o : JSObject A) (out : JSObject B * option B) :
  forEntries body o = Ok out ->
  NoDup (obj_keys o) ->
  Forall2 (fun entry compiled =>
             fst compiled = fst entry
             /\ body (fst entry) (snd entry) = Ok (snd compiled))
          (ownEntries o) (fst out)
  /\ match obj_get "__proto__" o with
     | Some a => exists b, body "__proto__"%string a = Ok b /\ snd out = Some b
     | None => snd out = None
     end.
Proof.
  intros H Hnd.
  destruct (entryStep_fold_NoDup body o ([], None) out H Hnd)
    as ((out' & E & HF) & Hp).
  - intros k _ [].
  - cbn [fst app] in E. rewrite E. split; [exact HF | exact Hp].
Qed.

Lemma ownEntries_key {A : Type} (o : JSObject A) (entry : string * A) :
  In entry (ownEntries o) -> isOwnKey (fst entry) = true.
Proof. unfold ownEntries. intro H. apply filter_In in H. exact (proj2 H). Qed.

Lemma Forall2_In_r {A B : Type} (R : A -> B -> Prop) l l' y :
  Forall2 R l l' -> In y l' -> exists x, In x l /\ R x y.
Proof.
  induction 1 as [|a b l l' Hab HF IH]; intro Hin; [destruct Hin|].
  destruct Hin as [->|Hin].
  - exists a. split; [now left | exact Hab].
  - destruct (IH Hin) as (x & Hx & Hr). exists x. split; [now right | exact Hr].
Qed.

Section AssemblerExtras.

Variables Schema DocumentNode : Type.
Variable mergeInFragmentSpreads :
  NewCompilationContext Schema -> SelectionSet -> SelectionSet.
Variable newTypeCase : SelectionSet -> TypeCase.
Variable compileToIR :
  Schema -> DocumentNode -> CompilerOptions -> NewCompilationContext Schema.
Variable collectFragmentsReferenced :
  NewCompilationContext Schema -> SelectionSet -> list string.

Abbreviation compile :=
  (compileToLegacyIR Schema DocumentNode mergeInFragmentSpreads newTypeCase
     compileToIR collectFragmentsReferenced).
Abbreviation compileOp :=
  (compileOperation Schema mergeInFragmentSpreads newTypeCase
     collectFragmentsReferenced).
Abbreviation compileFr :=
  (compileFragment Schema mergeInFragmentSpreads newTypeCase).
Abbreviation lowerSet :=
  (transformSelectionSetToLegacyIR Schema mergeInFragmentSpreads newTypeCase).
Abbreviation returnsWhen :=
  (compilable Schema mergeInFragmentSpreads newTypeCase
     collectFragmentsReferenced).

Lemma compileToLegacyIR_Ok_loops fuel schema document optionsArg lc :
  compile fuel schema document optionsArg = Ok lc ->
  let context := compileToIR schema document (effectiveOptions optionsArg) in
  lc_schema lc = nc_schema context
  /\ lc_typesUsed lc = nc_typesUsed context
  /\ lc_options lc = effectiveOptions optionsArg
  /\ forEntries (compileOp fuel context) (nc_operations context)
     = Ok (lc_operations lc, lc_operations_proto lc)
  /\ forEntries (compileFr fuel context) (nc_fragments context)
     = Ok (lc_fragments lc, lc_fragments_proto lc).
Proof.
  unfold compileToLegacyIR. intro H.
  apply bind_Ok_inv in H. destruct H as ([ops opsProto] & Ho & H).
  apply bind_Ok_inv in H. destruct H as ([frs frsProto] & Hf & H).
  injection H as <-. simpl. auto.
Qed.

Lemma compileOperation_Ok_copies fuel context operationName operation cop :
  compileOp fuel context operationName operation = Ok cop ->
  co_operationName cop = operationName
  /\ co_filePath cop = op_filePath operation
  /\ co_operationType cop = op_operationType operation
  /\ co_rootType cop = op_rootType operation
  /\ co_variables cop = op_variables operation
  /\ co_source cop = op_source operation
  /\ lowerSet fuel context (op_selectionSet operation) = Ok (co_body cop).
Proof.
  unfold compileOperation. intro H.
  apply bind_Ok_inv in H. destruct H as (sources & Hs & H).
  apply bind_Ok_inv in H. destruct H as (body & Hb & H).
  injection H as <-. simpl. auto 10.
Qed.

Lemma compileFragment_Ok_copies fuel context fragmentName fragment cf :
  compileFr fuel context fragmentName fragment = Ok cf ->
  cf_typeCondition cf = fr_type fragment
  /\ cf_possibleTypes cf = ss_possibleTypes (fr_selectionSet fragment)
  /\ cf_filePath cf = fr_filePath fragment
  /\ cf_fragmentName cf = fr_fragmentName fragment
  /\ cf_source cf = fr_source fragment
  /\ lowerSet fuel context (fr_selectionSet fragment) = Ok (cf_body cf).
Proof.
  unfold compileFragment. intro H.
  apply bind_Ok_inv in H. destruct H as (body & Hb & H).
  injection H as <-. simpl. auto 10.
Qed.

(** X9.  Whenever a compilation returns (and it does when every lowering
    does and every closure's names are defined), the returned context
    takes [schema] and [typesUsed] from the upstream context and [options]
    from the caller (defaulted), and, the operation names being distinct,
    its [operations] hold one compiled operation per upstream operation
    whose name is not [__proto__], under the same key and in the same
    order: its [operationName] is that key, its file path, operation type,
    root type, variables and source are copied, and its body is the
    lowering of the operation's selection set.  An upstream operation
    called [__proto__] gets no entry: the operation compiled from it
    replaces the prototype of [operations], which is left alone
    otherwise. *)
Theorem compiled_operations_mirror_upstream :
  forall schema document optionsArg,
    let context := compileToIR schema document (effectiveOptions optionsArg) in
    NoDup (obj_keys (nc_operations context)) ->
    (forall rank bound,
        returnsWhen context rank bound ->
        exists lc, compile (2 * bound) schema document optionsArg = Ok lc)
    /\ (forall fuel lc,
           compile fuel schema document optionsArg = Ok lc ->
           let mirrors operationName operation cop :=
             co_operationName cop = operationName
             /\ co_filePath cop = op_filePath operation
             /\ co_operationType cop = op_operationType operation
             /\ co_rootType cop = op_rootType operation
             /\ co_variables cop = op_variables operation
             /\ co_source cop = op_source operation
             /\ lowerSet fuel context (op_selectionSet operation)
                = Ok (co_body cop) in
           lc_schema lc = nc_schema context
           /\ lc_typesUsed lc = nc_typesUsed context
           /\ lc_options lc = effectiveOptions optionsArg
           /\ Forall2
                (fun entry compiled =>
                   fst compiled = fst entry
                   /\ mirrors (fst entry) (snd entry) (snd compiled))
                (ownEntries (nc_operations context)) (lc_operations lc)
           /\ (forall cop, ~ In ("__proto__"%string, cop) (lc_operations lc))
           /\ match obj_get "__proto__" (nc_operations context) with
              | Some operation =>
                  exists cop,
                    lc_operations_proto lc = Some cop
                    /\ mirrors "__proto__"%string operation cop
              | None => lc_operations_proto lc = None
              end).
Proof.
  intros schema document optionsArg context Hnd. split.
  { intros rank bound. apply compileToLegacyIR_returns. }
  intros fuel lc H mirrors.
  apply compileToLegacyIR_Ok_loops in H. fold context in H.
  destruct H as (Hs & Ht & Ho & Hops & _).
  split; [exact Hs|]. split; [exact Ht|]. split; [exact Ho|].
  pose proof (forEntries_NoDup _ _ _ Hops Hnd) as (HF & Hp).
  cbn [fst snd] in HF, Hp.
  assert (Forall2
            (fun entry compiled =>
               fst compiled = fst entry
               /\ mirrors (fst entry) (snd entry) (snd compiled))
            (ownEntries (nc_operations context)) (lc_operations lc)) as HM.
  { clear - HF. induction HF as [|entry compiled o out Hc HF IH];
      constructor; [|exact IH].
    destruct Hc as (Hk & Hc). split; [exact Hk|].
    now apply compileOperation_Ok_copies in Hc. }
  split; [exact HM|]. split.
  - intros cop Hin. clear - HF Hin.
    destruct (Forall2_In_r _ _ _ _ HF Hin) as (entry & He & Hk & _).
    apply ownEntries_key in He. cbn [fst] in Hk. rewrite <- Hk in He.
    discriminate He.
  - destruct (obj_get "__proto__" (nc_operations context)) as [operation|];
      [|exact Hp].
    destruct Hp as (cop & Hc & ->). exists cop. split; [reflexivity|].
    now apply compileOperation_Ok_copies in Hc.
Qed.

(** X10.  Whenever a compilation returns (and it does when every lowering
    does and every closure's names are defined), the fragment names being
    distinct, its [fragments] hold one compiled fragment per upstream
    fragment whose name is not [__proto__], under the same key and in the
    same order: [typeCondition] is the fragment's declared type,
    [possibleTypes] the possible types of its selection set, file path,
    fragment name and source are copied, and its body is the lowering of
    the fragment's selection set.  An upstream fragment called
    [__proto__] gets no entry: the fragment compiled from it replaces the
    prototype of [fragments], which is left alone otherwise. *)
Theorem compiled_fragments_mirror_upstream :
  forall schema document optionsArg,
    let context := compileToIR schema document (effectiveOptions optionsArg) in
    NoDup (obj_keys (nc_fragments context)) ->
    (forall rank bound,
        returnsWhen context rank bound ->
        exists lc, compile (2 * bound) schema document optionsArg = Ok lc)
    /\ (forall fuel lc,
           compile fuel schema document optionsArg = Ok lc ->
           let mirrors fragment cf :=
             cf_typeCondition cf = fr_type fragment
             /\ cf_possibleTypes cf
                = ss_possibleTypes (fr_selectionSet fragment)
             /\ cf_filePath cf = fr_filePath fragment
             /\ cf_fragmentName cf = fr_fragmentName fragment
             /\ cf_source cf = fr_source fragment
             /\ lowerSet fuel context (fr_selectionSet fragment)
                = Ok (cf_body cf) in
           Forall2
             (fun entry compiled =>
                fst compiled = fst entry
                /\ mirrors (snd entry) (snd compiled))
             (ownEntries (nc_fragments context)) (lc_fragments lc)
           /\ (forall cf, ~ In ("__proto__"%string, cf) (lc_fragments lc))
           /\ match obj_get "__proto__" (nc_fragments context) with
              | Some fragment =>
                  exists cf,
                    lc_fragments_proto lc = Some cf /\ mirrors fragment cf
              | None => lc_fragments_proto lc = None
              end).
Proof.
  intros schema document optionsArg context Hnd. split.
  { intros rank bound. apply compileToLegacyIR_returns. }
  intros fuel lc H mirrors.
  apply compileToLegacyIR_Ok_loops in H. fold context in H.
  destruct H as (_ & _ & _ & _ & Hfrs).
  pose proof (forEntries_NoDup _ _ _ Hfrs Hnd) as (HF & Hp).
  cbn [fst snd] in HF, Hp.
  split; [|split].
  - clear - HF. induction HF as [|entry compiled o out Hc HF IH];
      constructor; [|exact IH].
    destruct Hc as (Hk & Hc). split; [exact Hk|].
    now apply compileFragment_Ok_copies in Hc.
  - intros cf Hin. clear - HF Hin.
    destruct (Forall2_In_r _ _ _ _ HF Hin) as (entry & He & Hk & _).
    apply ownEntries_key in He. cbn [fst] in Hk. rewrite <- Hk in He.
    discriminate He.
  - destruct (obj_get "__proto__" (nc_fragments context)) as [fragment|];
      [|exact Hp].
    destruct Hp as (cf & Hc & ->). exists cf. split; [reflexivity|].
    now apply compileFragment_Ok_copies in Hc.
Qed.

(** X11.  A compilation is all or nothing: it returns a context exactly
    when every operation and every fragment of the upstream context
    compiles; one operation or fragment that throws leaves no context at
    all. *)
Theorem compilation_is_all_or_nothing :
  forall fuel schema document optionsArg,
    let context := compileToIR schema document (effectiveOptions optionsArg) in
    (exists lc, compile fuel schema document optionsArg = Ok lc)
    <-> (forall operationName operation,
            In (operationName, operation) (nc_operations context) ->
            exists cop,
              compileOp fuel context operationName operation = Ok cop)
        /\ (forall fragmentName fragment,
               In (fragmentName, fragment) (nc_fragments context) ->
               exists cf,
                 compileFr fuel context fragmentName fragment = Ok cf).
Proof.
  intros fuel schema document optionsArg context. split.
  - intros (lc & H). apply compileToLegacyIR_Ok_loops in H.
    fold context in H. destruct H as (_ & _ & _ & Hops & Hfrs). split.
    + exact (entryStep_fold_all_Ok _ _ _ _ Hops).
    + exact (entryStep_fold_all_Ok _ _ _ _ Hfrs).
  - intros (Hops & Hfrs).
    destruct (forEntries_total _ _ Hops) as (ops & Eo).
    destruct (forEntries_total _ _ Hfrs) as (frs & Ef).
    eexists. unfold compileToLegacyIR.
    eapply bind_Ok_intro; [exact Eo|].
    eapply bind_Ok_intro; [exact Ef|]. reflexivity.
Qed.

(** X12.  Whenever a compilation returns (and it does when every lowering
    does and every closure's names are defined), a compiled operation
    whose closure is empty has its own source as [sourceWithFragments],
    with no newline added, and the digest of its own source as
    [operationId]. *)
Theorem no_fragment_referenced_source_unchanged :
  forall schema document optionsArg,
    (forall rank bound,
        returnsWhen (compileToIR schema document (effectiveOptions optionsArg))
          rank bound ->
        exists lc, compile (2 * bound) schema document optionsArg = Ok lc)
    /\ (forall fuel lc operationName cop,
           compile fuel schema document optionsArg = Ok lc ->
           In (operationName, cop) (lc_operations lc) ->
           co_fragmentsReferenced cop = [] ->
           co_sourceWithFragments cop = Some (co_source cop)
           /\ co_operationId cop = Some (SHA256.hex (co_source cop))).
Proof.
  intros schema document optionsArg. split.
  { intros rank bound. apply compileToLegacyIR_returns. }
  intros fuel lc operationName cop H Hin Hnone.
  destruct (compiled_operation_origin _ _ _ _ _ _ _ _ _ _ _ _ _ H Hin)
    as (operation & _ & Hc).
  apply compileOperation_Ok_inv in Hc.
  destruct Hc as (sources & Hs & Hsrc & _ & Hrefs & Hswf & Hid).
  rewrite Hnone in Hrefs. rewrite <- Hrefs in Hs. simpl in Hs.
  injection Hs as <-. rewrite Hswf, Hid, Hsrc. split; reflexivity.
Qed.

(** X18.  The operation that replaced the prototype of [operations] is
    compiled like every entry: it comes from the upstream operation called
    [__proto__], carries that name, and has as [sourceWithFragments] its
    own source followed by its fragments' sources, each after a newline,
    and as [operationId] the digest of that text. *)
Theorem prototype_operation_compiled_alike :
  forall fuel schema document optionsArg lc cop,
    let context := compileToIR schema document (effectiveOptions optionsArg) in
    compile fuel schema document optionsArg = Ok lc ->
    lc_operations_proto lc = Some cop ->
    exists operation sources,
      In ("__proto__"%string, operation) (nc_operations context)
      /\ co_operationName cop = "__proto__"%string
      /\ co_source cop = op_source operation
      /\ mapM (fragmentSource Schema context)
              (collectFragmentsReferenced context (op_selectionSet operation))
         = Ok sources
      /\ co_sourceWithFragments cop
         = Some (sourceFollowedBy (op_source operation) sources)
      /\ co_operationId cop
         = Some (SHA256.hex (sourceFollowedBy (op_source operation) sources))
      /\ lowerSet fuel context (op_selectionSet operation)
         = Ok (co_body cop).
Proof.
  intros fuel schema document optionsArg lc cop context H Hp.
  apply compileToLegacyIR_Ok_loops in H. fold context in H.
  destruct H as (_ & _ & _ & Hops & _).
  destruct (proj2 (forEntries_Ok_inv _ _ _ Hops) cop Hp)
    as (operation & Hin & Hc).
  pose proof (compileOperation_Ok_copies _ _ _ _ _ Hc)
    as (Hn & _ & _ & _ & _ & _ & Hb).
  apply compileOperation_Ok_inv in Hc.
  destruct Hc as (sources & Hs & Hsrc & _ & _ & Hswf & Hid).
  exists operation, sources. rewrite <- join_sourceFollowedBy. auto 10.
Qed.

End AssemblerExtras.

Lemma withProto_keys_NoDup :
  NoDup (obj_keys Fixture.operationsWithProto)
  /\ NoDup (obj_keys Fixture.fragmentsWithProto).
Proof.
  split; (constructor; [intros [H|[]]; discriminate H|]);
    (constructor; [intros []|]); constructor.
Qed.

(** The operation called [__proto__] is compiled, and is not an entry of
    the result. *)
Lemma compiled_operations_mirror_upstream_witness :
  exists lc cop,
    compileToLegacyIR unit unit Fixture.noMerge Fixture.directTypeCase
      (Fixture.upstream Fixture.operationsWithProto
                        Fixture.fragmentsWithProto)
      Fixture.visibleSpreads 2 tt tt None
    = Ok lc
    /\ obj_keys (lc_operations lc) = ["Q"%string]
    /\ lc_operations_proto lc = Some cop
    /\ co_source cop = "query __proto__ { lives }"%string
    /\ lc_options lc = defaultOptions
    /\ List.length (lc_operations lc) = 1.
Proof.
  eexists. eexists. split; [reflexivity|]. split; [reflexivity|].
  split; [reflexivity|]. split; [reflexivity|].
  destruct (proj2 (compiled_operations_mirror_upstream unit unit
                     Fixture.noMerge Fixture.directTypeCase
                     (Fixture.upstream Fixture.operationsWithProto
                                       Fixture.fragmentsWithProto)
                     Fixture.visibleSpreads tt tt None
                     (proj1 withProto_keys_NoDup))
              2 _ eq_refl) as (_ & _ & Ho & HF & _).
  split; [exact Ho | exact (Forall2_length_eq _ _ _ HF)].
Defined.

(** The fragment called [__proto__] is compiled, and is not an entry of
    the result. *)
Lemma compiled_fragments_mirror_upstream_witness :
  exists lc cf,
    compileToLegacyIR unit unit Fixture.noMerge Fixture.directTypeCase
      (Fixture.upstream Fixture.operationsWithProto
                        Fixture.fragmentsWithProto)
      Fixture.visibleSpreads 2 tt tt None
    = Ok lc
    /\ obj_keys (lc_fragments lc) = ["CatFields"%string]
    /\ lc_fragments_proto lc = Some cf
    /\ cf_source cf = "fragment __proto__ on Cat { name }"%string
    /\ List.length (lc_fragments lc) = 1.
Proof.
  eexists. eexists. split; [reflexivity|]. split; [reflexivity|].
  split; [reflexivity|]. split; [reflexivity|].
  exact (Forall2_length_eq _ _ _
           (proj1 (proj2 (compiled_fragments_mirror_upstream unit unit
                            Fixture.noMerge Fixture.directTypeCase
                            (Fixture.upstream Fixture.operationsWithProto
                                              Fixture.fragmentsWithProto)
                            Fixture.visibleSpreads tt tt None
                            (proj2 withProto_keys_NoDup))
                     2 _ eq_refl))).
Defined.

Lemma prototype_operation_compiled_alike_witness :
  exists lc cop,
    compileToLegacyIR unit unit Fixture.noMerge Fixture.directTypeCase
      (Fixture.upstream Fixture.operationsWithProto
                        Fixture.fragmentsWithProto)
      Fixture.visibleSpreads 2 tt tt None
    = Ok lc
    /\ lc_operations_proto lc = Some cop
    /\ co_operationName cop = "__proto__"%string
    /\ co_sourceWithFragments cop = Some "query __proto__ { lives }"%string.
Proof.
  eexists. eexists. split; [reflexivity|]. split; [reflexivity|].
  destruct (prototype_operation_compiled_alike unit unit Fixture.noMerge
              Fixture.directTypeCase
              (Fixture.upstream Fixture.operationsWithProto
                                Fixture.fragmentsWithProto)
              Fixture.visibleSpreads 2 tt tt None _ _ eq_refl eq_refl)
    as (operation & sources & _ & Hn & _ & _ & _).
  split; [exact Hn | reflexivity].
Defined.

Lemma no_fragment_referenced_source_unchanged_witness :
  exists lc cop,
    compileToLegacyIR unit unit Fixture.noMerge Fixture.directTypeCase
      (Fixture.upstream
         [("Q"%string,
           Fixture.operation "query Q { name }"
             (mkSelectionSet [Fixture.Cat]
                [SField (Fixture.scalarField "name")]))]
         [])
      Fixture.visibleSpreads 2 tt tt None
    = Ok lc
    /\ In ("Q"%string, cop) (lc_operations lc)
    /\ co_fragmentsReferenced cop = []
    /\ co_sourceWithFragments cop = Some "query Q { name }"%string.
Proof.
  eexists. eexists. split; [reflexivity|]. split; [left; reflexivity|].
  split; [reflexivity|].
  exact (proj1 (proj2 (no_fragment_referenced_source_unchanged unit unit
                         Fixture.noMerge Fixture.directTypeCase
                         (Fixture.upstream
                            [("Q"%string,
                              Fixture.operation "query Q { name }"
                                (mkSelectionSet [Fixture.Cat]
                                   [SField (Fixture.scalarField "name")]))]
                            [])
                         Fixture.visibleSpreads tt tt None)
                  2 _ "Q"%string _ eq_refl (or_introl eq_refl) eq_refl)).
Defined.

(* ================================================================== *)
(** * What the lowering does not depend on *)

Section LoweringIndependence.

Variable Schema : Type.
Variables mergeInFragmentSpreads mergeInFragmentSpreads' :
  NewCompilationContext Schema -> SelectionSet -> SelectionSet.
Variables newTypeCase newTypeCase' : SelectionSet -> TypeCase.

Lemma transform_without_merge context :
  truthy (mergeInFieldsFromFragmentSpreads (nc_options context)) = false ->
  forall fuel,
    (forall selectionSet,
        transformSelectionSetToLegacyIR Schema mergeInFragmentSpreads
          newTypeCase fuel context selectionSet
        = transformSelectionSetToLegacyIR Schema mergeInFragmentSpreads'
            newTypeCase fuel context selectionSet)
    /\ (forall fields,
          transformFieldsToLegacyIR Schema mergeInFragmentSpreads
            newTypeCase fuel context fields
          = transformFieldsToLegacyIR Schema mergeInFragmentSpreads'
              newTypeCase fuel context fields).
Proof.
  intros Hoff fuel. induction fuel as [|fuel [IHs IHf]]; [split; reflexivity|].
  split.
  - intros selectionSet. rewrite !transformSelectionSetToLegacyIR_unfold.
    unfold typeCaseOf. rewrite Hoff.
    apply lowerSelectionSetWith_ext. exact IHf.
  - intros fields. rewrite !transformFieldsToLegacyIR_unfold.
    apply mapM_ext. intro field. apply lowerFieldWith_ext. exact IHs.
Qed.

(** X13.  Unless [mergeInFieldsFromFragmentSpreads] is set to [true] in
    the context's options, [mergeInFragmentSpreads] plays no part in the
    lowering: at every nesting level the partition is built from the
    selection set as it is, so two merging transforms give the same
    outcome, result or exception. *)
Theorem merge_transform_unused_when_option_off :
  forall context fuel selectionSet,
    truthy (mergeInFieldsFromFragmentSpreads (nc_options context)) = false ->
    transformSelectionSetToLegacyIR Schema mergeInFragmentSpreads
      newTypeCase fuel context selectionSet
    = transformSelectionSetToLegacyIR Schema mergeInFragmentSpreads'
        newTypeCase fuel context selectionSet.
Proof.
  intros context fuel selectionSet Hoff.
  now apply transform_without_merge.
Qed.

(** X14.  The enclosing [fragmentSpreads] of a lowered selection set
    depends on the selection set alone: it is collected from the selection
    set as given, never from the merged one, so that two lowerings of the
    same selection set that return, under any merging transforms,
    partitioners, contexts and stack budgets, agree on it. *)
Theorem fragmentSpreads_depend_on_the_selection_set_alone :
  forall (context context' : NewCompilationContext Schema) fuel fuel'
         selectionSet r r',
    transformSelectionSetToLegacyIR Schema mergeInFragmentSpreads
      newTypeCase fuel context selectionSet = Ok r ->
    transformSelectionSetToLegacyIR Schema mergeInFragmentSpreads'
      newTypeCase' fuel' context' selectionSet = Ok r' ->
    ls_fragmentSpreads r = ls_fragmentSpreads r'.
Proof.
  intros context context' fuel fuel' selectionSet r r' H H'.
  apply transformSelectionSetToLegacyIR_Ok_inv in H.
  destruct H as (_ & _ & _ & _ & _ & _ & ->).
  apply transformSelectionSetToLegacyIR_Ok_inv in H'.
  destruct H' as (_ & _ & _ & _ & _ & _ & ->).
  f_equal.
  rewrite (collect_without_fields context context' selectionSet).
  symmetry. apply collect_without_fields.
Qed.

End LoweringIndependence.

Lemma merge_transform_unused_when_option_off_witness :
  truthy (mergeInFieldsFromFragmentSpreads (nc_options Fixture.emptyContext))
  = false
  /\ transformSelectionSetToLegacyIR unit
       (fun _ _ => mkSelectionSet [] []) Fixture.directTypeCase 2
       Fixture.emptyContext Fixture.petSelection
     = transformSelectionSetToLegacyIR unit Fixture.noMerge
         Fixture.directTypeCase 2 Fixture.emptyContext Fixture.petSelection.
Proof.
  split; [reflexivity|].
  exact (merge_transform_unused_when_option_off unit
           (fun _ _ => mkSelectionSet [] []) Fixture.noMerge
           Fixture.directTypeCase Fixture.emptyContext 2
           Fixture.petSelection eq_refl).
Defined.

Lemma fragmentSpreads_depend_on_the_selection_set_alone_witness :
  exists r r',
    transformSelectionSetToLegacyIR unit Fixture.noMerge
      Fixture.directTypeCase 2 Fixture.emptyContext
      Fixture.petSelectionTwice
    = Ok r
    /\ transformSelectionSetToLegacyIR unit
         (fun _ _ => mkSelectionSet [] [])
         (Fixture.fixedTypeCase [])
         3 (mkNewContext tt [] [] [] defaultOptions)
         Fixture.petSelectionTwice
       = Ok r'
    /\ ls_fragmentSpreads r = ls_fragmentSpreads r'.
Proof.
  eexists. eexists. split; [reflexivity|]. split; [reflexivity|].
  exact (fragmentSpreads_depend_on_the_selection_set_alone unit
           Fixture.noMerge (fun _ _ => mkSelectionSet [] [])
           Fixture.directTypeCase (Fixture.fixedTypeCase [])
           Fixture.emptyContext (mkNewContext tt [] [] [] defaultOptions)
           2 3 Fixture.petSelectionTwice _ _ eq_refl eq_refl).
Defined.
